(** * ShapeAnalysis on a HexGrid: a shallow embedding of src/ShapeAnalysis.h

    The development follows the layout of the C++ header: the connectivity
    records it reads ([Hex], [HexGrid], [DirichVtx]), then the static methods
    of [morph::ShapeAnalysis] in source order ([get_contours],
    [dirichlet_regions], [vertex_test], [walk_common], [walk_to_next],
    [walk_to_neighbour], [process_domain], [dirichlet_vertices]), then the
    properties.

    Numbers.  The template parameter [Flt] is a floating-point type in the
    source.  It is modelled by the exact rationals [Q]: comparisons and the
    order of operations are those of the source, rounding, infinities and NaN
    are not modelled.  [int] directions are integers [Z], with the wrap-around
    of 32 bits written out where the source adds to them. *)

From Stdlib Require Import ZArith QArith Qround Qabs String Lia Lqa.
From stdpp Require Import base option list.

Local Open Scope Z_scope.

(** ** Flt *)

Definition Flt : Type := Q.

Definition Flt_eqb (a b : Flt) : bool := Qeq_bool a b.
Definition Flt_ltb (a b : Flt) : bool := negb (Qle_bool b a).
Definition Flt_gtb (a b : Flt) : bool := Flt_ltb b a.

(** [numeric_limits<Flt>::max()], at [Flt = double]. *)
Definition Flt_max : Flt := inject_Z (2 ^ 1024 - 2 ^ 971).

(** [numeric_limits<int>::max()]. *)
Definition int_max : Z := 2147483647.

(** The literals [1e7] and [-1.0f] of the source. *)
Definition seed_1e7 : Flt := inject_Z 10000000.
Definition sentinel : Flt := inject_Z (-1).

Definition coord : Type := (Flt * Flt)%type.

Definition coord_unset : coord := (Flt_max, Flt_max).

(** ** Hex, HexGrid, DirichVtx

    Hex.h, HexGrid.h and DirichVtx.h are included by the header; the records
    below hold the members that ShapeAnalysis.h reads and writes.  A
    [list<Hex>::iterator] is a position in [hexen]; a neighbour that is absent
    ([has_ne == false], ...) is [None]. *)

Module Hex.

Record t : Type := mk {
  vi : nat;             (* index of the hex in the data vectors *)
  x : Flt;
  y : Flt;
  boundaryHex : bool;
  onBoundary : bool;    (* the value the method onBoundary() returns *)
  ne : option nat;      (* neighbour direction 0, east *)
  nne : option nat;     (* 1 *)
  nnw : option nat;     (* 2 *)
  nw : option nat;      (* 3 *)
  nsw : option nat;     (* 4 *)
  nse : option nat      (* 5 *)
}.

Definition get_neighbour (h : t) (ni : Z) : option nat :=
  match ni with
  | 0 => ne h
  | 1 => nne h
  | 2 => nnw h
  | 3 => nw h
  | 4 => nsw h
  | 5 => nse h
  | _ => None
  end.

Definition has_neighbour (h : t) (ni : Z) : bool :=
  bool_decide (is_Some (get_neighbour h ni)).

End Hex.

Module HexGrid.

Record t : Type := mk {
  hexen : list Hex.t;
  getd : Flt
}.

Definition num (hg : t) : nat := length (hexen hg).

End HexGrid.

Module DirichVtx.

Record t : Type := mk {
  v : coord;
  f : Flt;
  neighb : Flt * Flt;
  hi : nat;                      (* list<Hex>::iterator *)
  onBoundary : bool;
  closed : bool;
  pathto_next : list coord;
  pathto_neighbour : list coord
}.

(** Modelled from the spec: DirichVtx.h is not among the sources.  The
    five-argument constructor used by [vertex_test] stores location, domain
    identity, neighbour pair and owning cell; a fresh vertex is neither on
    the boundary nor closed and has empty path buffers ([vertex_test] sets
    [onBoundary] itself where it wants it, [process_domain] sets [closed]). *)
Definition make (p : coord) (d : Flt) (id : Flt) (oth : Flt * Flt) (hex : nat) : t :=
  mk p id oth hex false false [] [].

Definition set_onBoundary (b : bool) (a : t) : t :=
  mk (v a) (f a) (neighb a) (hi a) b (closed a) (pathto_next a) (pathto_neighbour a).

Definition set_closed (b : bool) (a : t) : t :=
  mk (v a) (f a) (neighb a) (hi a) (onBoundary a) b (pathto_next a) (pathto_neighbour a).

Definition set_pathto_next (p : list coord) (a : t) : t :=
  mk (v a) (f a) (neighb a) (hi a) (onBoundary a) (closed a) p (pathto_neighbour a).

Definition set_pathto_neighbour (p : list coord) (a : t) : t :=
  mk (v a) (f a) (neighb a) (hi a) (onBoundary a) (closed a) (pathto_next a) p.

End DirichVtx.

(** The methods of [Hex] and [DirichVtx] that ShapeAnalysis.h calls and whose
    bodies live in the absent headers, together with [sqrt]: they are the
    parameters of the development. *)
Class Geometry : Type := {
  get_vertex_coord : Hex.t -> Z -> coord;
  compare_vertex_coord : Hex.t -> Z -> coord -> bool;
  compare_coord : Hex.t -> coord -> bool;
  getLR : Hex.t -> Flt;
  Flt_sqrt : Flt -> Flt;
  vtx_compare : DirichVtx.t -> coord -> bool;
  vtx_unset : DirichVtx.t -> bool;
  vtx_default : DirichVtx.t
}.

(** ** Outcomes of the effectful methods

    [Throw] is a C++ exception ([runtime_error]) leaving the call; [Undef] is a
    read the source performs outside a container (an iterator or an index that
    points nowhere); [OutOfFuel] is a walk whose [while] loop has not finished
    within the iterations it was given. *)

Inductive outcome (A : Type) : Type :=
| Ret (a : A)
| Throw (msg : string)
| Undef
| OutOfFuel.

Arguments Ret {A} a.
Arguments Throw {A} msg.
Arguments Undef {A}.
Arguments OutOfFuel {A}.

Definition obind {A B : Type} (m : outcome A) (k : A -> outcome B) : outcome B :=
  match m with
  | Ret a => k a
  | Throw s => Throw s
  | Undef => Undef
  | OutOfFuel => OutOfFuel
  end.

Definition must {A : Type} (o : option A) : outcome A :=
  match o with
  | Some a => Ret a
  | None => Undef
  end.

Declare Scope outcome_scope.
Delimit Scope outcome_scope with out.
Notation "x <- m ;; k" := (obind m (fun x => k))
  (at level 100, m at next level, right associativity) : outcome_scope.

(** ** Reading the fields *)

(** [f[i][h]] on a [vector<vector<Flt>>]; outside the vectors the source has
    undefined behaviour, the model reads [0]. *)
Definition fget (f : list (list Flt)) (i h : nat) : Flt :=
  default 0%Q (row ← f !! i; row !! h).

(** [f[h]] on the identity field. *)
Definition idget (f : list Flt) (h : nat) : outcome Flt := must (f !! h).

(** Dereferencing a hex iterator. *)
Definition deref (hg : HexGrid.t) (it : nat) : outcome Hex.t :=
  must (HexGrid.hexen hg !! it).

(** ** get_contours *)

Section Contours.
Variable hg : HexGrid.t.
Variable f : list (list Flt).
Variable threshold : Flt.

Definition N : nat := length f.

(** Lines 66-67: one value meets the running maximum and minimum. *)
Definition keep_extrema (acc : Flt * Flt) (v : Flt) : Flt * Flt :=
  (if Flt_gtb v (fst acc) then v else fst acc,
   if Flt_ltb v (snd acc) then v else snd acc).

(** Lines 61-70: the running maximum and minimum, over the hexes for which
    [onBoundary()] is false, in grid order, and over the fields in order. *)
Definition minmax_field (vi : nat) (acc : Flt * Flt) (i : nat) : Flt * Flt :=
  keep_extrema acc (fget f i vi).

Definition minmax_hex (acc : Flt * Flt) (h : Hex.t) : Flt * Flt :=
  if Hex.onBoundary h then acc
  else foldl (minmax_field (Hex.vi h)) acc (seq 0 N).

Definition minmax : Flt * Flt :=
  foldl minmax_hex (Qopp seed_1e7, seed_1e7) (HexGrid.hexen hg).

Definition maxf : Flt := fst minmax.
Definition minf : Flt := snd minmax.
Definition scalef : Flt := (1 / (maxf - minf))%Q.

(** Lines 74-84: [norm_f[i][h]], for [i < N] and [h < nhex]; the entries are
    [resize]d to [nhex = hg->num()], so a read at [h >= nhex] is outside the
    vector. *)
Definition norm_f (i h : nat) : Flt := ((fget f i h - minf) * scalef)%Q.

(** [h.has_ne && norm_f[i][h.ne->vi] < threshold] for one direction; an
    iterator that points outside [hexen] counts as no neighbour. *)
Definition nb_below (i : nat) (nb : option nat) : bool :=
  match nb with
  | Some k =>
      match HexGrid.hexen hg !! k with
      | Some n => Flt_ltb (norm_f i (Hex.vi n)) threshold
      | None => false
      end
  | None => false
  end.

(** Lines 87-106: the test that sends [h] to [rtn[i]]. *)
Definition collate (i : nat) (h : Hex.t) : bool :=
  if Hex.onBoundary h then Flt_gtb (norm_f i (Hex.vi h)) threshold
  else
    Flt_gtb (norm_f i (Hex.vi h)) threshold
    && (nb_below i (Hex.ne h) || nb_below i (Hex.nne h) || nb_below i (Hex.nnw h)
        || nb_below i (Hex.nw h) || nb_below i (Hex.nsw h) || nb_below i (Hex.nse h)).

Definition get_contours : list (list Hex.t) :=
  map (fun i => List.filter (collate i) (HexGrid.hexen hg)) (seq 0 N).

End Contours.

(** ** dirichlet_regions *)

Section Regions.
Variable hg : HexGrid.t.
Variable f : list (list Flt).

(** Lines 127-134, one pass of the inner loop: the state is the running
    maximum and the vector to return.  [rtn[h.vi] = ...] outside the vector is
    undefined in the source and writes nothing here. *)
Definition region_field (vi : nat) (acc : Flt * list Flt) (i : nat) : Flt * list Flt :=
  if Flt_gtb (fget f i vi) (fst acc)
  then (fget f i vi,
        <[vi := (inject_Z (Z.of_nat i) / inject_Z (Z.of_nat (length f)))%Q]> (snd acc))
  else acc.

Definition region_hex (rtn : list Flt) (h : Hex.t) : list Flt :=
  snd (foldl (region_field (Hex.vi h)) (Qopp seed_1e7, rtn) (seq 0 (length f))).

(** [rtn] has [f[0].size()] entries ([f[0]] on an empty [f] is undefined in
    the source and gives no entry here). *)
Definition dirichlet_regions : list Flt :=
  foldl region_hex
        (replicate (length (default [] (f !! 0%nat))) 0%Q)
        (HexGrid.hexen hg).

End Regions.

(** ** Integer arithmetic on directions

    [int] is 32 bits wide; [%] is the remainder of the truncating division. *)

Definition wrap32 (z : Z) : Z := (z + 2 ^ 31) mod 2 ^ 32 - 2 ^ 31.

(** [(d+1)%6] *)
Definition next6 (d : Z) : Z := Z.rem (wrap32 (d + 1)) 6.

(** [d>0 ? d-1 : 5] *)
Definition prev6 (d : Z) : Z := if 0 <? d then d - 1 else 5.

(** [(d+3)%6] *)
Definition opp6 (d : Z) : Z := Z.rem (wrap32 (d + 3)) 6.

Definition dirs : list Z := [0; 1; 2; 3; 4; 5].

(** A [for] loop over a list whose body may fail. *)
Fixpoint ofold {A B : Type} (step : A -> B -> outcome A) (l : list B) (a : A) : outcome A :=
  match l with
  | [] => Ret a
  | b :: l' => obind (step a b) (ofold step l')
  end.

Inductive Rotn : Type := Unknown | Clock | Anticlock.

#[global] Instance Rotn_eq_dec : EqDecision Rotn.
Proof. solve_decision. Defined.

Section ShapeAnalysis.
Context {G : Geometry}.
Variable hg : HexGrid.t.
Variable f : list Flt.

Local Open Scope outcome_scope.

(** [f[it->vi]] for a hex iterator [it]. *)
Definition hexid (it : nat) : outcome Flt :=
  h <- deref hg it ;; idget f (Hex.vi h).

(** [f[h->get_neighbour(ni)->vi]], read after [has_neighbour(ni)]. *)
Definition nbid (h : Hex.t) (ni : Z) : outcome Flt :=
  k <- must (Hex.get_neighbour h ni) ;; hexid k.

(** *** vertex_test *)

(** [n_ids.insert(x)] on a [set<Flt>]; only its size is read. *)
Definition n_ids_insert (s : list Flt) (x : Flt) : list Flt :=
  if existsb (Flt_eqb x) s then s else s ++ [x].

(** Lines 151-155. *)
Definition n_ids_step (h : Hex.t) (s : list Flt) (ni : Z) : outcome (list Flt) :=
  if Hex.has_neighbour h ni
  then x <- nbid h ni ;; Ret (n_ids_insert s x)
  else Ret s.

(** Lines 169-207, the body of the boundary loop. *)
Definition boundary_step (it : nat) (h : Hex.t) (self : Flt)
    (vertices : list DirichVtx.t) (ni : Z) : outcome (list DirichVtx.t) :=
  if Hex.has_neighbour h ni then
    fn <- nbid h ni ;;
    if negb (Flt_eqb fn self) then
      if negb (Hex.has_neighbour h (next6 ni)) then
        Ret (vertices ++
             [DirichVtx.set_onBoundary true
                (DirichVtx.make (get_vertex_coord h ni) (HexGrid.getd hg) self
                                (sentinel, fn) it)])
      else if negb (Hex.has_neighbour h (prev6 ni)) then
        Ret (vertices ++
             [DirichVtx.set_onBoundary true
                (DirichVtx.make (get_vertex_coord h (prev6 ni)) (HexGrid.getd hg) self
                                (fn, sentinel) it)])
      else Ret vertices
    else Ret vertices
  else Ret vertices.

(** Lines 213-239, the body of the second loop. *)
Definition interior_step (it : nat) (h : Hex.t) (self : Flt)
    (vertices : list DirichVtx.t) (ni : Z) : outcome (list DirichVtx.t) :=
  if Hex.has_neighbour h ni then
    f1 <- nbid h ni ;;
    if negb (Flt_eqb f1 self) then
      if Hex.has_neighbour h (next6 ni) then
        f2 <- nbid h (next6 ni) ;;
        if negb (Flt_eqb f2 self) && negb (Flt_eqb f2 f1) then
          Ret (vertices ++
               [DirichVtx.make (get_vertex_coord h ni) (HexGrid.getd hg) self (f2, f1) it])
        else Ret vertices
      else Ret vertices
    else Ret vertices
  else Ret vertices.

Definition vertex_test (it : nat) (vertices : list DirichVtx.t) : outcome (list DirichVtx.t) :=
  h <- deref hg it ;;
  self <- idget f (Hex.vi h) ;;
  n_ids <- ofold (n_ids_step h) dirs [self] ;;
  if (Hex.boundaryHex h && (2 <=? length n_ids)%nat)
     || (negb (Hex.boundaryHex h) && (3 <=? length n_ids)%nat)
  then
    vs1 <- (if Hex.boundaryHex h
            then ofold (boundary_step it h self) dirs vertices
            else Ret vertices) ;;
    ofold (interior_step it h self) dirs vs1
  else Ret vertices.

(** *** walk_common

    The iterators and the coordinate that live across the iterations of the
    [while (!partner_found)] loop, and the path written so far. *)
Record wstate : Type := mkW {
  hexit_first : nat;
  hexit : nat;
  hexit_neighb : nat;
  v_init : coord;
  path : list coord
}.

(** What a returning walk hands back: the value returned and the three
    by-reference arguments. *)
Record walk_out : Type := mkOut {
  next_one : coord;
  out_path : list coord;
  next_neighb_dom : Flt;
  next_neighb_coord : coord
}.

(** How one pass of the rotating [for] loop leaves the [while] loop:
    [partner_found] set, or another iteration from a new state. *)
Inductive for_exit : Type :=
| Finished (r : walk_out)
| Again (st : wstate).

Section Walk.
Variable edgedoms : Flt * Flt.
(** [next_neighb_coord] as the caller passed it in; the walk only writes it
    when it finishes. *)
Variable nnc : coord.

(** Lines 324-344: which neighbour of [hexit_first] becomes the new
    [hexit_first]; [None] when the loop ends without [break]. *)
Fixpoint seed_first (ds : list Z) (hf : Hex.t) (vi0 : coord) : outcome (option nat) :=
  match ds with
  | [] => Ret None
  | i :: ds' =>
      match Hex.get_neighbour hf i with
      | Some nb =>
          hb <- deref hg nb ;;
          let x_ := (Hex.x hb - fst vi0)%Q in
          let y_ := (Hex.y hb - snd vi0)%Q in
          let distance := Flt_sqrt (x_ * x_ + y_ * y_)%Q in
          if Flt_ltb (distance - getLR hf)%Q (1 # 1000)%Q then
            fb <- idget f (Hex.vi hb) ;;
            if negb (Flt_eqb fb (snd edgedoms)) && negb (Flt_eqb fb (fst edgedoms))
            then Ret (Some nb)
            else seed_first ds' hf vi0
          else seed_first ds' hf vi0
      | None => seed_first ds' hf vi0
      end
  end.

(** Lines 353-425: the loop over the six corners of [hexit_first]; returns
    [hexit_first_dirn] and the value left in [hexit]. *)
Fixpoint first_dirn (ds : list Z) (hf : Hex.t) (vi0 : coord) (hx : nat) : outcome (Z * nat) :=
  match ds with
  | [] => Ret (int_max, hx)
  | i :: ds' =>
      if compare_vertex_coord hf i vi0 then
        r1 <- match Hex.get_neighbour hf (next6 i) with
              | Some nb => fa <- hexid nb ;; Ret (Flt_eqb fa (fst edgedoms), nb)
              | None => Ret (false, hx)
              end ;;
        if fst r1 then Ret (next6 i, snd r1)
        else
          match Hex.get_neighbour hf (prev6 i) with
          | Some nb =>
              fa <- hexid nb ;;
              if Flt_eqb fa (fst edgedoms) then Ret (prev6 i, nb)
              else first_dirn ds' hf vi0 nb
          | None => Ret (prev6 i, snd r1)
          end
      else first_dirn ds' hf vi0 hx
  end.

(** Lines 437-469 and 472-500: the test of one flanking direction [j];
    returns [found_second] and the value left in [hexit_neighb]. *)
Definition second_at (hf : Hex.t) (j : Z) (hn : nat) : outcome (bool * nat) :=
  match Hex.get_neighbour hf j with
  | Some nb =>
      hb <- deref hg nb ;;
      fb <- idget f (Hex.vi hb) ;;
      if Flt_eqb fb (snd edgedoms) then
        if negb (Flt_eqb (fst nnc) Flt_max) && negb (Flt_eqb (snd nnc) Flt_max)
        then Ret (compare_coord hb nnc, nb)
        else Ret (true, nb)
      else Ret (false, nb)
  | None => Ret (false, hn)
  end.

(** Lines 433-501: [hexit_second_dirn] when found, and [hexit_neighb]. *)
Definition find_second (hf : Hex.t) (d : Z) (hn : nat) : outcome (option Z * nat) :=
  r1 <- second_at hf (next6 d) hn ;;
  if fst r1 then Ret (Some (next6 d), snd r1)
  else
    r2 <- second_at hf (prev6 d) (snd r1) ;;
    if fst r2 then Ret (Some (prev6 d), snd r2) else Ret (None, snd r2).

(** Lines 511-535: rotation sense and [hex_hex_neighb_dirn]. *)
Definition rotation (d sd : Z) : Rotn * Z :=
  if sd =? prev6 d then (Anticlock, next6 (opp6 d))
  else if sd =? next6 d then (Clock, prev6 (opp6 d))
  else (Unknown, int_max).

(** Lines 553-557. *)
Definition last_dirn (rot : Rotn) (hhnd : Z) : Z :=
  if decide (rot = Anticlock) then prev6 hhnd else next6 hhnd.

(** The increment of the [for] loop at line 563. *)
Definition rot_step (rot : Rotn) (j : Z) : Z :=
  if decide (rot = Anticlock) then next6 j else prev6 j.

(** Lines 561-635: the loop rotating around [hexit]. *)
Fixpoint rotate (n : nat) (rot : Rotn) (last_j j : Z) (st : wstate) (hexit_last : nat)
    : outcome for_exit :=
  if j =? last_j then Ret (Again st)
  else
    match n with
    | O => OutOfFuel
    | S n' =>
        hx <- deref hg (hexit st) ;;
        let c := get_vertex_coord hx (prev6 j) in
        match Hex.get_neighbour hx j with
        | None =>
            Ret (Finished (mkOut c (path st ++ [c]) sentinel coord_unset))
        | Some nxt =>
            hn <- deref hg nxt ;;
            fn <- idget f (Hex.vi hn) ;;
            if Flt_eqb fn (snd edgedoms) then
              rotate n' rot last_j (rot_step rot j)
                     (mkW (hexit_first st) (hexit st) (hexit_neighb st) c (path st ++ [c]))
                     nxt
            else if Flt_eqb fn (fst edgedoms) then
              Ret (Again (mkW (hexit st) nxt hexit_last c (path st)))
            else
              Ret (Finished (mkOut c (path st ++ [c]) fn (Hex.x hn, Hex.y hn)))
        end
    end.

Definition msg_second : string :=
  "Whoop whoop - failed to find the second hex associated with the initial vertex!".
Definition msg_wrong : string := "hexit_neighb is in the WRONG direction.".

(** Lines 348-636, one iteration of the [while] loop.  In the test of line
    543, [hexit->get_neighbour(d)] for a direction without neighbour is an
    iterator that equals no hex of the grid. *)
Definition walk_iter (st : wstate) : outcome for_exit :=
  hf <- deref hg (hexit_first st) ;;
  fd <- first_dirn dirs hf (v_init st) (hexit st) ;;
  sec <- find_second hf (fst fd) (hexit_neighb st) ;;
  match fst sec with
  | None => Throw msg_second
  | Some sd =>
      let rh := rotation (fst fd) sd in
      hx <- deref hg (snd fd) ;;
      if decide (Hex.get_neighbour hx (snd rh) = Some (snd sec)) then
        rotate 6 (fst rh) (last_dirn (fst rh) (snd rh)) (snd rh)
               (mkW (hexit_first st) (snd fd) (snd sec) (v_init st) (path st))
               (snd sec)
      else Throw msg_wrong
  end.

Fixpoint walk_loop (fuel : nat) (st : wstate) : outcome walk_out :=
  match fuel with
  | O => OutOfFuel
  | S fuel' =>
      e <- walk_iter st ;;
      match e with
      | Finished r => Ret r
      | Again st' => walk_loop fuel' st'
      end
  end.

(** Lines 302-345: the state in which the [while] loop is entered. *)
Definition walk_init (v : DirichVtx.t) (pth : list coord) : outcome wstate :=
  let it := DirichVtx.hi v in
  hf <- deref hg it ;;
  f0 <- idget f (Hex.vi hf) ;;
  if Flt_eqb f0 (fst edgedoms) then
    s <- seed_first dirs hf (DirichVtx.v v) ;;
    match s with
    | Some nb => Ret (mkW nb it it (DirichVtx.v v) pth)
    | None => Ret (mkW it it it (DirichVtx.v v) pth)
    end
  else Ret (mkW it it it (DirichVtx.v v) pth).

Definition walk_common (fuel : nat) (v : DirichVtx.t) (pth : list coord) : outcome walk_out :=
  st <- walk_init v pth ;; walk_loop fuel st.

End Walk.

(** What [walk_to_next] and [walk_to_neighbour] leave behind: the returned
    coordinate, the vertex [v] (whose path buffer the walk extends) and the
    two other by-reference arguments. *)
Record walked : Type := mkWalked {
  w_coord : coord;
  w_vtx : DirichVtx.t;
  w_dom : Flt;
  w_ncoord : coord
}.

(** *** walk_to_next *)
Definition walk_to_next (fuel : nat) (v : DirichVtx.t) (nnd : Flt) (nnc : coord)
    : outcome walked :=
  let edgedoms := (DirichVtx.f v, fst (DirichVtx.neighb v)) in
  r <- walk_common edgedoms nnc fuel v (DirichVtx.pathto_next v) ;;
  Ret (mkWalked (next_one r) (DirichVtx.set_pathto_next (out_path r) v)
                (next_neighb_dom r) (next_neighb_coord r)).

(** *** walk_to_neighbour *)
Definition walk_to_neighbour (fuel : nat) (v : DirichVtx.t) (nnd : Flt) (nnc : coord)
    : outcome walked :=
  if Flt_eqb (fst (DirichVtx.neighb v)) sentinel
     || Flt_eqb (snd (DirichVtx.neighb v)) sentinel
  then Ret (mkWalked (0%Q, 0%Q) v nnd nnc)
  else
    let edgedoms := DirichVtx.neighb v in
    r <- walk_common edgedoms nnc fuel v (DirichVtx.pathto_neighbour v) ;;
    Ret (mkWalked (next_one r) (DirichVtx.set_pathto_neighbour (out_path r) v)
                  (next_neighb_dom r) (next_neighb_coord r)).

(** *** process_domain

    The arguments passed by reference: the candidate list, the domain under
    construction and [next_neighb_coord].  [dv] is a position in [vertices]. *)
Record pstate : Type := mkP {
  vertices : list DirichVtx.t;
  domain : list DirichVtx.t;
  p_ncoord : coord
}.

(** Lines 766 and 774-776: the test made on each [dv2]. *)
Definition next_match (v : DirichVtx.t) (next_vtx : coord) (nnd : Flt) (c : DirichVtx.t) : bool :=
  negb (DirichVtx.closed c) && vtx_compare c next_vtx
  && (Flt_eqb (DirichVtx.f c) (DirichVtx.f v)
      && Flt_eqb (snd (DirichVtx.neighb c)) (fst (DirichVtx.neighb v))
      && Flt_eqb (fst (DirichVtx.neighb c)) nnd).

(** Lines 757-796: the [while] loop over [vertices], left at the first match. *)
Definition search_next (v : DirichVtx.t) (next_vtx : coord) (nnd : Flt)
    (vs : list DirichVtx.t) : option (nat * DirichVtx.t) :=
  list_find (fun c => next_match v next_vtx nnd c = true) vs.

(** [depth] bounds the number of nested calls, [wfuel] the iterations of each
    walk; [None] is the budget of nested calls running out.  The result comes
    with the by-reference arguments as the call left them; an exception leaves
    them as they were when it was thrown. *)
Fixpoint process_domain (depth wfuel : nat) (dv : nat) (st : pstate) (first_vtx : DirichVtx.t)
    : option (outcome bool * pstate) :=
  match depth with
  | O => None
  | S depth' =>
      match vertices st !! dv with
      | None => Some (Undef, st)
      | Some v =>
          let first_vtx := if vtx_unset first_vtx then v else first_vtx in
          match walk_to_next wfuel v Flt_max (p_ncoord st) with
          | Ret w =>
              let st1 := mkP (alter (DirichVtx.set_closed true) dv (vertices st))
                             (domain st ++ [w_vtx w])
                             (w_ncoord w) in
              if vtx_compare first_vtx (w_coord w) then Some (Ret true, st1)
              else
                match search_next v (w_coord w) (w_dom w) (vertices st1) with
                | None => Some (Ret false, st1)
                | Some (dv2, c) =>
                    if DirichVtx.onBoundary c then Some (Ret false, st1)
                    else process_domain depth' wfuel dv2 st1 first_vtx
                end
          | Throw m => Some (Throw m, st)
          | Undef => Some (Undef, st)
          | OutOfFuel => Some (OutOfFuel, st)
          end
      end
  end.

(** *** dirichlet_vertices *)

(** Lines 830-835. *)
Definition scan_hexen (vs : list DirichVtx.t) : outcome (list DirichVtx.t) :=
  ofold (fun acc it => vertex_test it acc) (seq 0 (length (HexGrid.hexen hg))) vs.

(** Lines 842-861: the loop over [dv]; [domcount] is the counter of the
    source, [doms] is [dirich_domains].  [fuel] bounds the iterations of the
    loop ([None] when it runs out); the recursion of [process_domain] is given
    as many nested calls as there are candidates. *)
Fixpoint closure_loop (fuel wfuel : nat) (dv domcount : nat) (vs : list DirichVtx.t)
    (doms : list (list DirichVtx.t))
    : option (outcome (list (list DirichVtx.t)) * list DirichVtx.t) :=
  if (dv <? length vs)%nat && (domcount <? 3)%nat then
    match fuel with
    | O => None
    | S fuel' =>
        match vs !! dv with
        | None => Some (Undef, vs)
        | Some c =>
            match HexGrid.hexen hg !! DirichVtx.hi c with
            | None => Some (Undef, vs)
            | Some h =>
                if Hex.boundaryHex h then
                  closure_loop fuel' wfuel (S dv) (S domcount)
                               (alter (DirichVtx.set_closed true) dv vs) doms
                else
                  match process_domain (length vs) wfuel dv (mkP vs [] coord_unset)
                                       vtx_default with
                  | None => None
                  | Some (Ret success, st) =>
                      closure_loop fuel' wfuel (S dv) (S domcount) (vertices st)
                                   (if success then doms ++ [domain st] else doms)
                  | Some (Throw m, st) => Some (Throw m, vertices st)
                  | Some (Undef, st) => Some (Undef, vertices st)
                  | Some (OutOfFuel, st) => Some (OutOfFuel, vertices st)
                  end
            end
        end
    end
  else Some (Ret doms, vs).

Definition dirichlet_vertices (wfuel : nat) (vs : list DirichVtx.t)
    : option (outcome (list (list DirichVtx.t)) * list DirichVtx.t) :=
  match scan_hexen vs with
  | Ret vs1 => closure_loop (length vs1) wfuel 0 0 vs1 []
  | Throw m => Some (Throw m, vs)
  | Undef => Some (Undef, vs)
  | OutOfFuel => Some (OutOfFuel, vs)
  end.

End ShapeAnalysis.

(** ** A concrete lattice, for evaluating the methods

    Modelled from the spec: the bodies of [Hex::get_vertex_coord],
    [Hex::compare_vertex_coord], [Hex::compare_coord], [Hex::getLR],
    [DirichVtx::compare], [DirichVtx::unset] and the default constructor of
    [DirichVtx] are in the absent headers.  The instance below is a hex grid
    with hex-to-hex distance 1: corner [i] lies between neighbour directions
    [i] and [i+1], at the long radius from the centre; coordinates are equal
    when they differ by less than a fixed tolerance in both components; an
    unset vertex sits at ([Flt_max], [Flt_max]).  The irrational [1/sqrt 3] is
    replaced by a six-digit decimal and [sqrt] by a square root rounded down
    to six digits. *)
Module Lattice.

Definition SR : Flt := (1 # 2)%Q.
Definition VtoNE : Flt := (288675 # 1000000)%Q.
Definition LR : Flt := (2 * VtoNE)%Q.
Definition V : Flt := (3 * VtoNE)%Q.
Definition tol : Flt := (1 # 1000)%Q.

Definition close_to (a b : coord) : bool :=
  Flt_ltb (Qabs (fst a - fst b)) tol && Flt_ltb (Qabs (snd a - snd b)) tol.

Definition corner (h : Hex.t) (dx dy : Flt) : coord :=
  (Qred (Hex.x h + dx), Qred (Hex.y h + dy)).
Arguments corner h (dx dy)%_Q.

Definition vertex_coord (h : Hex.t) (ni : Z) : coord :=
  match ni with
  | 0 => corner h SR VtoNE
  | 1 => corner h 0 LR
  | 2 => corner h (- SR) VtoNE
  | 3 => corner h (- SR) (- VtoNE)
  | 4 => corner h 0 (- LR)
  | 5 => corner h SR (- VtoNE)
  | _ => (inject_Z (-2), inject_Z (-2))
  end.

Definition sqrt6 (q : Flt) : Flt :=
  Qred (Z.sqrt (Qfloor (q * inject_Z (10 ^ 12))) # 1000000).

#[global] Instance geometry : Geometry := {|
  get_vertex_coord := vertex_coord;
  compare_vertex_coord := fun h ni c => close_to (vertex_coord h ni) c;
  compare_coord := fun h c => close_to (Hex.x h, Hex.y h) c;
  getLR := fun _ => LR;
  Flt_sqrt := sqrt6;
  vtx_compare := fun a c => close_to (DirichVtx.v a) c;
  vtx_unset := fun a =>
    Flt_eqb (fst (DirichVtx.v a)) Flt_max && Flt_eqb (snd (DirichVtx.v a)) Flt_max;
  vtx_default := DirichVtx.mk coord_unset 0%Q (0%Q, 0%Q) 0%nat false false [] []
|}.

(** Cells are named by axial coordinates [(q, r)]: east is [(q+1, r)],
    north-east [(q, r+1)].  A cell lacking one of its six neighbours is a
    boundary hex. *)
Definition axial : Type := (Z * Z)%type.

Definition shift (c : axial) (ni : Z) : axial :=
  match ni with
  | 0 => (fst c + 1, snd c)
  | 1 => (fst c, snd c + 1)
  | 2 => (fst c - 1, snd c + 1)
  | 3 => (fst c - 1, snd c)
  | 4 => (fst c, snd c - 1)
  | _ => (fst c + 1, snd c - 1)
  end.

Definition locate (cells : list axial) (c : axial) : option nat :=
  fst <$> list_find (fun c' => c' = c) cells.

Definition hex_of (cells : list axial) (k : nat) (c : axial) : Hex.t :=
  let nb := fun ni => locate cells (shift c ni) in
  let edge := negb (forallb (fun ni => bool_decide (is_Some (nb ni))) dirs) in
  Hex.mk k
         (Qred (inject_Z (fst c) + inject_Z (snd c) * SR))
         (Qred (inject_Z (snd c) * V))
         edge edge
         (nb 0) (nb 1) (nb 2) (nb 3) (nb 4) (nb 5).

Definition grid_of (cells : list axial) : HexGrid.t :=
  HexGrid.mk (imap (hex_of cells) cells) 1%Q.

(** One hex and its six neighbours, listed row by row from the south. *)
Definition rosette_cells : list axial :=
  [(0, -1); (1, -1); (-1, 0); (0, 0); (1, 0); (-1, 1); (0, 1)].
Definition rosette : HexGrid.t := grid_of rosette_cells.

(** Seven identities, one per hex. *)
Definition seven_ids : list Flt :=
  [(0 # 7); (1 # 7); (2 # 7); (3 # 7); (4 # 7); (5 # 7); (6 # 7)]%Q.

End Lattice.

(** ** The vocabulary of the properties *)

Definition neighbours (h : Hex.t) : list (option nat) :=
  [Hex.ne h; Hex.nne h; Hex.nnw h; Hex.nw h; Hex.nsw h; Hex.nse h].

(** Some neighbour of [h] exists and its normalised value for field [i] stands
    in relation [R] to the threshold. *)
Definition nb_related (R : Q -> Q -> Prop) (hg : HexGrid.t) (f : list (list Flt))
    (threshold : Flt) (i : nat) (h : Hex.t) : Prop :=
  exists k n, Some k ∈ neighbours h /\ HexGrid.hexen hg !! k = Some n
              /\ R (norm_f hg f i (Hex.vi n)) threshold.

(** Contour membership, with the comparison made on the neighbours left open:
    [Qlt] is "below the threshold", [Qle] is "at or below the threshold". *)
Definition contour_member (R : Q -> Q -> Prop) (hg : HexGrid.t) (f : list (list Flt))
    (threshold : Flt) (i : nat) (h : Hex.t) : Prop :=
  (threshold < norm_f hg f i (Hex.vi h))%Q
  /\ (Hex.onBoundary h = true \/ nb_related R hg f threshold i h).

(** The values [f[i][h.vi]] over all fields and over the hexes of the grid
    that satisfy [keep]. *)
Definition field_values (keep : Hex.t -> bool) (hg : HexGrid.t) (f : list (list Flt))
    : list Flt :=
  h ← List.filter keep (HexGrid.hexen hg); (fun i => fget f i (Hex.vi h)) <$> seq 0 (length f).

Definition interior (h : Hex.t) : bool := negb (Hex.onBoundary h).
Definition every (h : Hex.t) : bool := true.

Definition is_max (l : list Flt) (m : Flt) : Prop :=
  m ∈ l /\ forall x, x ∈ l -> (x <= m)%Q.
Definition is_min (l : list Flt) (m : Flt) : Prop :=
  m ∈ l /\ forall x, x ∈ l -> (m <= x)%Q.

(** Normalisation by the extrema of the values selected by [keep]. *)
Definition normalised_by (keep : Hex.t -> bool) (hg : HexGrid.t) (f : list (list Flt)) : Prop :=
  exists mn mx,
    is_min (field_values keep hg f) mn /\ is_max (field_values keep hg f) mx
    /\ forall i h, (norm_f hg f i h == (fget f i h - mn) / (mx - mn))%Q.

(** [i] is the first index at which the fields are largest at position [vi]. *)
Definition first_argmax (f : list (list Flt)) (vi i : nat) : Prop :=
  (i < length f)%nat
  /\ (forall j, (j < length f)%nat -> (fget f j vi <= fget f i vi)%Q)
  /\ (forall j, (j < i)%nat -> (fget f j vi < fget f i vi)%Q).

(** The closed flags of [vs] that are set are still set in [vs']. *)
Definition closed_kept (vs vs' : list DirichVtx.t) : Prop :=
  forall i c, vs !! i = Some c -> DirichVtx.closed c = true ->
              exists c', vs' !! i = Some c' /\ DirichVtx.closed c' = true.

(** The number of candidates whose closed flag is not set. *)
Fixpoint unclosed (vs : list DirichVtx.t) : nat :=
  match vs with
  | [] => 0
  | c :: l => (if DirichVtx.closed c then 0 else 1) + unclosed l
  end.

(** What the two passes of [vertex_test] make for the hex at [it]. *)
Definition boundary_made (it : nat) (c : DirichVtx.t) : Prop :=
  DirichVtx.onBoundary c = true /\ DirichVtx.closed c = false /\ DirichVtx.hi c = it
  /\ (fst (DirichVtx.neighb c) = sentinel \/ snd (DirichVtx.neighb c) = sentinel).

Definition interior_made (it : nat) (c : DirichVtx.t) : Prop :=
  DirichVtx.onBoundary c = false /\ DirichVtx.closed c = false /\ DirichVtx.hi c = it.

(** The label [i/N] of [dirichlet_regions]. *)
Definition label (f : list (list Flt)) (i : nat) : Flt :=
  (inject_Z (Z.of_nat i) / inject_Z (Z.of_nat (length f)))%Q.

(** Directions are numbered 0 to 5. *)
Definition in_range (d : Z) : Prop := 0 <= d <= 5.

(** The number of increments of the loop at line 563 that take [j] to [l]. *)
Definition to_go (rot : Rotn) (j l : Z) : nat :=
  Z.to_nat (if decide (rot = Anticlock) then (l - j) mod 6 else (j - l) mod 6).

(** [e] leaves the path [p] extended: by coordinates ending in the one
    returned when the walk is over, by any coordinates otherwise. *)
Definition extends (p : list coord) (e : for_exit) : Prop :=
  match e with
  | Finished r => exists mid, out_path r = p ++ mid ++ [next_one r]
  | Again st' => exists mid, path st' = p ++ mid
  end.

Section Vocabulary.
Context {G : Geometry}.

(** [c] is a candidate at which the domain of [v] continues after the walk
    [w]: unclosed, at the coordinate the walk returned, of the domain of [v],
    with neighbour pair (identity found by the walk, [v.neighb.first]). *)
Definition continues (v : DirichVtx.t) (w : walked) (c : DirichVtx.t) : Prop :=
  DirichVtx.closed c = false
  /\ vtx_compare c (w_coord w) = true
  /\ (DirichVtx.f c == DirichVtx.f v)%Q
  /\ (snd (DirichVtx.neighb c) == fst (DirichVtx.neighb v))%Q
  /\ (fst (DirichVtx.neighb c) == w_dom w)%Q.

Definition first_continuation (v : DirichVtx.t) (w : walked) (vs : list DirichVtx.t)
    (j : nat) (c : DirichVtx.t) : Prop :=
  vs !! j = Some c /\ continues v w c
  /\ forall j' c', vs !! j' = Some c' -> (j' < j)%nat -> ~ continues v w c'.

Definition no_continuation (v : DirichVtx.t) (w : walked) (vs : list DirichVtx.t) : Prop :=
  forall j c, vs !! j = Some c -> ~ continues v w c.

(** The neighbour of [hf] in direction [j] is missing or does not carry the
    identity [b]. *)
Definition no_side (hg : HexGrid.t) (f : list Flt) (b : Flt) (hf : Hex.t) (j : Z) : Prop :=
  Hex.get_neighbour hf j = None
  \/ exists nb hb (fb : Flt), Hex.get_neighbour hf j = Some nb
                      /\ HexGrid.hexen hg !! nb = Some hb
                      /\ f !! Hex.vi hb = Some fb
                      /\ ~ (fb == b)%Q.

End Vocabulary.

Module Samples.
Import Lattice.

(** Two fields on the rosette: the centre stands at 1 in the first field, every
    other hex at 1/2; the second field is 0 everywhere. *)
Definition plateau : list (list Flt) :=
  [[(1 # 2); (1 # 2); (1 # 2); 1; (1 # 2); (1 # 2); (1 # 2)]; [0; 0; 0; 0; 0; 0; 0]]%Q.

(** Two fields on the rosette whose largest value, 3, sits on the boundary
    hexes only. *)
Definition rim_high : list (list Flt) :=
  [[3; 3; 3; 1; 3; 3; 3]; [0; 0; 0; 0; 0; 0; 0]]%Q.

(** The hexes of the rosette: the one in the middle and the six around it. *)
Definition centre : Hex.t := hex_of rosette_cells 3 (0, 0).
Definition rim : list Hex.t := List.filter Hex.onBoundary (HexGrid.hexen rosette).

(** The first candidate that [vertex_test] finds on the rosette with seven
    identities: a boundary vertex of the south-west hex. *)
Definition corner_sw : DirichVtx.t :=
  DirichVtx.mk (0%Q, Qred (- (4 * VtoNE))) (0 # 7)%Q ((1 # 7)%Q, sentinel) 0 true false [] [].

(** The candidates of the rosette with seven identities, as [dirichlet_vertices]
    collects them, the arguments of a first call of [process_domain], the
    candidate at position 12 (the north-east corner of the centre hex) and the
    walk from it. *)
Definition scanned : list DirichVtx.t :=
  match scan_hexen rosette seven_ids [] with
  | Ret l => l
  | _ => []
  end.
Definition fresh : pstate := mkP scanned [] coord_unset.
Definition corner_ne : DirichVtx.t := default vtx_default (scanned !! 12%nat).
Definition walked_ne : walked :=
  match walk_to_next rosette seven_ids 20 corner_ne Flt_max coord_unset with
  | Ret w => w
  | _ => mkWalked coord_unset corner_ne Flt_max coord_unset
  end.

(** The candidate list as [dirichlet_vertices] leaves it on the rosette. *)
Definition left_over : list DirichVtx.t :=
  match dirichlet_vertices rosette seven_ids 20 [] with
  | Some (_, vs) => vs
  | None => []
  end.

(** The rosette again, listed from the centre outwards. *)
Definition centre_first : HexGrid.t :=
  grid_of [(0, 0); (1, 0); (0, 1); (-1, 1); (-1, 0); (0, -1); (1, -1)].

(** Two states of the loop of [walk_common] on the rosette, both with the
    south-west hex in all three iterators: at its south-east corner, and at its
    north-east corner. *)
Definition south_west : Hex.t := hex_of rosette_cells 0 (0, -1).
Definition at_se : wstate := mkW 0 0 0 (vertex_coord south_west 5) [].
Definition at_ne : wstate := mkW 0 0 0 (vertex_coord south_west 0) [].

(** One hex, and two fields that are both below [-1e7] there. *)
Definition lone : HexGrid.t := grid_of [(0, 0)].
Definition deep : list (list Flt) :=
  [[inject_Z (-30000000)]; [inject_Z (-20000000)]].

End Samples.

(** ** More vocabulary: candidates, walks and domains *)

(** The neighbour of [h] in direction [j] is missing or carries the identity
    [self]. *)
Definition same_side (hg : HexGrid.t) (f : list Flt) (self : Flt) (h : Hex.t) (j : Z) : Prop :=
  Hex.get_neighbour h j = None
  \/ exists nb hb (fb : Flt), Hex.get_neighbour h j = Some nb
                      /\ HexGrid.hexen hg !! nb = Some hb
                      /\ f !! Hex.vi hb = Some fb
                      /\ (fb == self)%Q.

(** The identities that meet at a candidate.  At a triple point its own and
    the two of its neighbour pair are pairwise different; at a boundary vertex
    one of the pair is the sentinel and the other differs from its own. *)
Definition three_identities (c : DirichVtx.t) : Prop :=
  ~ (fst (DirichVtx.neighb c) == DirichVtx.f c)%Q
  /\ ~ (snd (DirichVtx.neighb c) == DirichVtx.f c)%Q
  /\ ~ (fst (DirichVtx.neighb c) == snd (DirichVtx.neighb c))%Q.

Definition two_identities (c : DirichVtx.t) : Prop :=
  (fst (DirichVtx.neighb c) = sentinel /\ ~ (snd (DirichVtx.neighb c) == DirichVtx.f c)%Q)
  \/ (snd (DirichVtx.neighb c) = sentinel /\ ~ (fst (DirichVtx.neighb c) == DirichVtx.f c)%Q).

Definition meeting (c : DirichVtx.t) : Prop :=
  if DirichVtx.onBoundary c then two_identities c else three_identities c.

(** A candidate as the scan of the grid leaves it: its hex is in the grid, a
    boundary vertex belongs to a boundary hex, and it is unclosed. *)
Definition owned (hg : HexGrid.t) (c : DirichVtx.t) : Prop :=
  DirichVtx.closed c = false
  /\ exists h, HexGrid.hexen hg !! DirichVtx.hi c = Some h
               /\ (DirichVtx.onBoundary c = true -> Hex.boundaryHex h = true).

(** What a finished walk between the identities [edgedoms] reports about the
    far side of the vertex it reached: nothing (the sentinel and an unset
    coordinate), or the identity and the position of a hex of the grid whose
    identity is neither of the two. *)
Definition reports (hg : HexGrid.t) (f : list Flt) (edgedoms : Flt * Flt)
    (dom : Flt) (co : coord) : Prop :=
  (dom = sentinel /\ co = coord_unset)
  \/ exists k hn, HexGrid.hexen hg !! k = Some hn
                  /\ f !! Hex.vi hn = Some dom
                  /\ ~ (dom == fst edgedoms)%Q
                  /\ ~ (dom == snd edgedoms)%Q
                  /\ co = (Hex.x hn, Hex.y hn).

(** No hex carries the identity [b]. *)
Definition absent (f : list Flt) (b : Flt) : Prop :=
  forall k (fb : Flt), f !! k = Some fb -> ~ (fb == b)%Q.

(** An outcome that is a value or undefined behaviour: no exception, no
    budget exhausted. *)
Definition plain {A : Type} (m : outcome A) : Prop :=
  m = Undef \/ exists a, m = Ret a.

(** [c'] is [c], or [c] with its closed flag set. *)
Definition flag_only (c c' : DirichVtx.t) : Prop :=
  c' = c \/ c' = DirichVtx.set_closed true c.

(** A vertex of a domain that was reached by a walk: it carries the identity
    [d], is no boundary vertex, and was copied while its closed flag was
    unset. *)
Definition reached (d : Flt) (c : DirichVtx.t) : Prop :=
  (DirichVtx.f c == d)%Q /\ DirichVtx.onBoundary c = false /\ DirichVtx.closed c = false.

(** A domain as [dirichlet_vertices] returns it: it starts with a candidate
    owned by a hex that is not a boundary hex, and goes on with vertices
    reached from it. *)
Definition traced (hg : HexGrid.t) (dom : list DirichVtx.t) : Prop :=
  exists c rest h,
    dom = c :: rest
    /\ HexGrid.hexen hg !! DirichVtx.hi c = Some h
    /\ Hex.boundaryHex h = false
    /\ Forall (reached (DirichVtx.f c)) rest.



Module Cases.
Import Lattice.

(** Two fields of two entries, for the grid of one hex: the second entry
    belongs to no hex. *)
Definition wide : list (list Flt) := [[1; 2]; [0; 3]]%Q.

(** Two fields on the rosette: the first is largest on the six outer hexes,
    the second on the centre. *)
Definition ring : list (list Flt) :=
  [[1; 1; 1; 0; 1; 1; 1]; [0; 0; 0; 1; 0; 0; 0]]%Q.

(** One identity for every hex of the rosette. *)
Definition flat : list Flt := replicate 7 (3 # 7)%Q.

(** The second candidate of the rosette with seven identities: a boundary
    vertex of the south-west hex whose neighbour pair starts with the
    sentinel. *)
Definition rim_vertex : DirichVtx.t := default vtx_default (Samples.scanned !! 1%nat).

(** The domain found on the rosette listed from the centre outwards. *)
Definition found : list (list DirichVtx.t) :=
  match dirichlet_vertices Samples.centre_first seven_ids 20 [] with
  | Some (Ret doms, _) => doms
  | _ => []
  end.

(** Identities on the rosette with which a closure attempt is cut short by an
    exception: the candidates, the two of the centre hex (positions 8 and 9),
    and the state in which the call made on the first of them leaves the
    arguments when its walk has returned. *)
Definition lopsided : list Flt := [(1 # 2); 0; 0; (1 # 4); 0; 0; 0]%Q.
Definition lopsided_scan : list DirichVtx.t :=
  match scan_hexen rosette lopsided [] with
  | Ret l => l
  | _ => []
  end.
Definition south_corner : DirichVtx.t := default vtx_default (lopsided_scan !! 8%nat).
Definition stranded : DirichVtx.t := default vtx_default (lopsided_scan !! 9%nat).
Definition halfway : pstate :=
  match walk_to_next rosette lopsided 20 south_corner Flt_max coord_unset with
  | Ret w =>
      mkP (alter (DirichVtx.set_closed true) 8%nat lopsided_scan) [w_vtx w] (w_ncoord w)
  | _ => mkP lopsided_scan [] coord_unset
  end.


End Cases.

(** * Properties *)

(** ** Comparisons *)

Lemma Flt_ltb_lt (a b : Flt) : Flt_ltb a b = true <-> (a < b)%Q.
Proof.
  unfold Flt_ltb. rewrite negb_true_iff.
  split; intros H.
  - apply Qnot_le_lt. intros Hle. apply Qle_bool_iff in Hle. congruence.
  - destruct (Qle_bool b a) eqn:E; [|reflexivity].
    apply Qle_bool_iff in E. exfalso. exact (Qlt_not_le _ _ H E).
Qed.

Lemma Flt_ltb_ge (a b : Flt) : Flt_ltb a b = false <-> (b <= a)%Q.
Proof.
  unfold Flt_ltb. rewrite negb_false_iff. apply Qle_bool_iff.
Qed.

Lemma Flt_gtb_gt (a b : Flt) : Flt_gtb a b = true <-> (b < a)%Q.
Proof. apply Flt_ltb_lt. Qed.

Lemma Flt_eqb_eq (a b : Flt) : Flt_eqb a b = true <-> (a == b)%Q.
Proof. apply Qeq_bool_iff. Qed.

Lemma Flt_eqb_neq (a b : Flt) : Flt_eqb a b = false <-> ~ (a == b)%Q.
Proof.
  rewrite <- Flt_eqb_eq. destruct (Flt_eqb a b); split; congruence.
Qed.

(** ** get_contours *)

Section ContourFacts.
Variable hg : HexGrid.t.
Variable f : list (list Flt).
Variable threshold : Flt.

Lemma get_contours_lookup (i : nat) (l : list Hex.t) :
  get_contours hg f threshold !! i = Some l ->
  (i < length f)%nat /\ l = List.filter (collate hg f threshold i) (HexGrid.hexen hg).
Proof.
  unfold get_contours, N. intros H.
  change (((fun i => List.filter (collate hg f threshold i) (HexGrid.hexen hg))
             <$> seq 0 (length f)) !! i = Some l) in H.
  rewrite list_lookup_fmap in H.
  destruct (seq 0 (length f) !! i) as [j|] eqn:E; simpl in H; [|discriminate].
  apply lookup_seq in E as [-> Hlt]. simpl in H.
  split; [exact Hlt | congruence].
Qed.

Lemma get_contours_length : length (get_contours hg f threshold) = length f.
Proof. unfold get_contours, N. now rewrite length_map, length_seq. Qed.

Lemma nb_below_true (i : nat) (nb : option nat) :
  nb_below hg f threshold i nb = true <->
  exists k n, nb = Some k /\ HexGrid.hexen hg !! k = Some n
              /\ (norm_f hg f i (Hex.vi n) < threshold)%Q.
Proof.
  unfold nb_below. split.
  - destruct nb as [k|]; [|discriminate].
    destruct (HexGrid.hexen hg !! k) as [n|] eqn:E; [|discriminate].
    intros H. exists k, n. rewrite Flt_ltb_lt in H. auto.
  - intros (k & n & -> & -> & H). now apply Flt_ltb_lt.
Qed.

Lemma nb_related_lt (i : nat) (h : Hex.t) :
  nb_related Qlt hg f threshold i h <->
  existsb (nb_below hg f threshold i) (neighbours h) = true.
Proof.
  rewrite existsb_exists. unfold nb_related. split.
  - intros (k & n & Hin & Hn & Hlt). exists (Some k). split.
    + now apply list_elem_of_In.
    + apply nb_below_true. eauto.
  - intros (nb & Hin & Hb). apply nb_below_true in Hb as (k & n & -> & Hn & Hlt).
    exists k, n. split; [now apply list_elem_of_In | auto].
Qed.

Lemma collate_member (i : nat) (h : Hex.t) :
  collate hg f threshold i h = true <-> contour_member Qlt hg f threshold i h.
Proof.
  unfold collate, contour_member. rewrite nb_related_lt.
  unfold neighbours. cbn [existsb]. rewrite orb_false_r.
  destruct (Hex.onBoundary h).
  - rewrite Flt_gtb_gt. intuition.
  - rewrite andb_true_iff, Flt_gtb_gt, !orb_assoc. intuition congruence.
Qed.

End ContourFacts.

(** The extrema that [get_contours] normalises with. *)

Lemma keep_extrema_fold (l : list Flt) (acc : Flt * Flt) :
  let r := foldl keep_extrema acc l in
  ((fst acc <= fst r)%Q /\ (forall v, v ∈ l -> (v <= fst r)%Q)
   /\ (fst r = fst acc \/ fst r ∈ l))
  /\ ((snd r <= snd acc)%Q /\ (forall v, v ∈ l -> (snd r <= v)%Q)
      /\ (snd r = snd acc \/ snd r ∈ l)).
Proof.
  revert acc. induction l as [|a l IH]; intros acc; cbn zeta.
  - cbn. repeat split; try apply Qle_refl; auto;
      intros v Hv; now apply elem_of_nil in Hv.
  - cbn [foldl]. specialize (IH (keep_extrema acc a)). cbn zeta in IH.
    destruct IH as [(Hge & Hall & Hin) (Hle & Hall' & Hin')].
    set (r := foldl keep_extrema (keep_extrema acc a) l) in *.
    assert (Hmax : (fst acc <= fst (keep_extrema acc a))%Q
                   /\ (a <= fst (keep_extrema acc a))%Q).
    { unfold keep_extrema; cbn [fst]. destruct (Flt_gtb a (fst acc)) eqn:E.
      - apply Flt_gtb_gt in E. split; [now apply Qlt_le_weak | apply Qle_refl].
      - apply Flt_ltb_ge in E. split; [apply Qle_refl | exact E]. }
    assert (Hmin : (snd (keep_extrema acc a) <= snd acc)%Q
                   /\ (snd (keep_extrema acc a) <= a)%Q).
    { unfold keep_extrema; cbn [fst snd]. destruct (Flt_ltb a (snd acc)) eqn:E.
      - apply Flt_ltb_lt in E. split; [now apply Qlt_le_weak | apply Qle_refl].
      - apply Flt_ltb_ge in E. split; [apply Qle_refl | exact E]. }
    destruct Hmax as [Hm1 Hm2], Hmin as [Hn1 Hn2].
    split; (split; [|split]).
    + eapply Qle_trans; eauto.
    + intros v Hv. apply elem_of_cons in Hv as [->|Hv]; [|auto].
      eapply Qle_trans; eauto.
    + destruct Hin as [Hin|Hin]; [|right; now apply elem_of_cons; right].
      rewrite Hin. unfold keep_extrema; cbn [fst].
      destruct (Flt_gtb a (fst acc)); [right; apply elem_of_cons; now left | now left].
    + eapply Qle_trans; eauto.
    + intros v Hv. apply elem_of_cons in Hv as [->|Hv]; [|auto].
      eapply Qle_trans; eauto.
    + destruct Hin' as [Hin'|Hin']; [|right; now apply elem_of_cons; right].
      rewrite Hin'. unfold keep_extrema; cbn [snd].
      destruct (Flt_ltb a (snd acc)); [right; apply elem_of_cons; now left | now left].
Qed.

Lemma minmax_field_fold (f : list (list Flt)) (vi : nat) (l : list nat) (acc : Flt * Flt) :
  foldl (minmax_field f vi) acc l
  = foldl keep_extrema acc ((fun i => fget f i vi) <$> l).
Proof.
  revert acc. induction l as [|i l IH]; intros acc; [reflexivity|].
  cbn [foldl fmap list_fmap]. apply IH.
Qed.

Lemma minmax_values (hg : HexGrid.t) (f : list (list Flt)) :
  minmax hg f
  = foldl keep_extrema (Qopp seed_1e7, seed_1e7) (field_values interior hg f).
Proof.
  unfold minmax, field_values. generalize (Qopp seed_1e7, seed_1e7).
  induction (HexGrid.hexen hg) as [|h l IH]; intros acc; [reflexivity|].
  cbn [foldl List.filter]. rewrite IH. unfold minmax_hex, interior, N.
  destruct (Hex.onBoundary h); cbn [negb]; [reflexivity|].
  cbn [mbind list_bind]. rewrite foldl_app, minmax_field_fold. reflexivity.
Qed.

(** C3, as the code has it.  The maximum and the minimum are taken over all
    fields but over the hexes that are not on the boundary only; when some such
    value lies above the seed [-1e7] of the maximum and some below the seed
    [1e7] of the minimum, every value of every field is normalised as
    [(f[i][h] - min) / (max - min)] with these two extrema. *)
Theorem get_contours_normalises_interior (hg : HexGrid.t) (f : list (list Flt)) :
  (exists v, v ∈ field_values interior hg f /\ (- seed_1e7 < v)%Q) ->
  (exists v, v ∈ field_values interior hg f /\ (v < seed_1e7)%Q) ->
  normalised_by interior hg f.
Proof.
  intros (hi & Hhi & Hhi') (lo & Hlo & Hlo').
  pose proof (keep_extrema_fold (field_values interior hg f) (Qopp seed_1e7, seed_1e7)) as H.
  cbn zeta in H. rewrite <- minmax_values in H. cbn [fst snd] in H.
  destruct H as [(_ & Hall & Hin) (_ & Hall' & Hin')].
  exists (minf hg f), (maxf hg f). unfold minf, maxf. split; [|split].
  - split; [|exact Hall'].
    destruct Hin' as [E|Hin']; [|exact Hin'].
    exfalso. specialize (Hall' lo Hlo). rewrite E in Hall'.
    exact (Qlt_not_le _ _ Hlo' Hall').
  - split; [|exact Hall].
    destruct Hin as [E|Hin]; [|exact Hin].
    exfalso. specialize (Hall hi Hhi). rewrite E in Hall.
    exact (Qlt_not_le _ _ Hhi' Hall).
  - intros i h. unfold norm_f, scalef, maxf, minf, Qdiv.
    now rewrite Qmult_1_l.
Qed.

(** C3 on the rosette, where the centre is the only interior hex. *)
Lemma get_contours_normalises_interior_witness :
  ((exists v, v ∈ field_values interior Lattice.rosette Samples.rim_high
              /\ (- seed_1e7 < v)%Q)
   /\ (exists v, v ∈ field_values interior Lattice.rosette Samples.rim_high
                 /\ (v < seed_1e7)%Q))
  /\ normalised_by interior Lattice.rosette Samples.rim_high.
Proof.
  assert (Hin : 1%Q ∈ field_values interior Lattice.rosette Samples.rim_high).
  { apply list_elem_of_In. vm_compute. auto. }
  assert (H1 : exists v, v ∈ field_values interior Lattice.rosette Samples.rim_high
                         /\ (- seed_1e7 < v)%Q).
  { exists 1%Q. split; [exact Hin | reflexivity]. }
  assert (H2 : exists v, v ∈ field_values interior Lattice.rosette Samples.rim_high
                         /\ (v < seed_1e7)%Q).
  { exists 1%Q. split; [exact Hin | reflexivity]. }
  split; [split; assumption|].
  exact (get_contours_normalises_interior Lattice.rosette Samples.rim_high H1 H2).
Defined.

(** C3, as the claim has it, fails: on the rosette with the largest value, 3, on
    boundary hexes only, the value 1 of the centre is normalised to 1 and not
    to 1/3, so no minimum and maximum over every cell of the grid give the
    normalised values. *)
Lemma get_contours_not_normalised_by_every_cell :
  ~ normalised_by every Lattice.rosette Samples.rim_high.
Proof.
  intros (mn & mx & [Hmn Hmn'] & [Hmx Hmx'] & Hnorm).
  specialize (Hnorm 0%nat 3%nat).
  assert (H3 : (3 <= mx)%Q).
  { apply Hmx'. apply list_elem_of_In. vm_compute. auto. }
  assert (H0 : (mn <= 0)%Q).
  { apply Hmn'. apply list_elem_of_In. vm_compute. auto. }
  assert (Hpos : ~ (mx - mn == 0)%Q) by lra.
  assert (Hn : norm_f Lattice.rosette Samples.rim_high 0 3 = (1 * 1)%Q) by reflexivity.
  assert (Hf : fget Samples.rim_high 0 3 = 1%Q) by reflexivity.
  rewrite Hn, Hf in Hnorm.
  pose proof (Qmult_div_r (1 - mn) (mx - mn) Hpos) as Hd.
  rewrite <- Hnorm in Hd. lra.
Qed.

(** C2, as the code has it.  [get_contours] returns one collection per field,
    and a hex of the grid is in the collection of field [i] exactly when its
    normalised value exceeds the threshold and it is on the boundary or has an
    existing neighbour whose normalised value is strictly below the threshold. *)
Theorem get_contours_membership (hg : HexGrid.t) (f : list (list Flt)) (threshold : Flt)
    (i : nat) (l : list Hex.t) (h : Hex.t) :
  get_contours hg f threshold !! i = Some l ->
  (h ∈ l <-> h ∈ HexGrid.hexen hg /\ contour_member Qlt hg f threshold i h).
Proof.
  intros H. apply get_contours_lookup in H as [_ ->].
  rewrite !list_elem_of_In, filter_In, collate_member. reflexivity.
Qed.

(** C2 on the rosette at threshold 1/4: the contour of the first field is the
    rim, and the centre, whose neighbours are all above the threshold, is not
    on it. *)
Lemma get_contours_membership_witness :
  get_contours Lattice.rosette Samples.plateau (1 # 4) !! 0%nat = Some Samples.rim
  /\ (Samples.centre ∈ Samples.rim <->
      Samples.centre ∈ HexGrid.hexen Lattice.rosette
      /\ contour_member Qlt Lattice.rosette Samples.plateau (1 # 4) 0 Samples.centre).
Proof.
  split; [reflexivity|].
  apply (get_contours_membership Lattice.rosette Samples.plateau (1 # 4) 0
           Samples.rim Samples.centre).
  reflexivity.
Defined.

(** C2, as the claim has it, fails: on the rosette the centre hex is above the
    threshold 1/2, is not on the boundary, and every neighbour is exactly at
    the threshold; it is left out of the contour. *)
Lemma get_contours_at_threshold_excluded :
  ~ (forall i l h,
        get_contours Lattice.rosette Samples.plateau (1 # 2) !! i = Some l ->
        (h ∈ l <->
         h ∈ HexGrid.hexen Lattice.rosette
         /\ contour_member Qle Lattice.rosette Samples.plateau (1 # 2) i h)).
Proof.
  intros H.
  destruct (HexGrid.hexen Lattice.rosette !! 3%nat) as [c|] eqn:Ec; [|discriminate].
  destruct (HexGrid.hexen Lattice.rosette !! 4%nat) as [e|] eqn:Ee; [|discriminate].
  specialize (H 0%nat [] c eq_refl).
  apply proj2 in H. apply elem_of_nil in H; [exact H|].
  split; [eapply list_elem_of_lookup_2; exact Ec|].
  vm_compute in Ec. injection Ec as <-.
  split; [reflexivity|].
  right. exists 4%nat, e. split; [|split; [exact Ee|]].
  - apply list_elem_of_In. cbn. auto.
  - vm_compute in Ee. injection Ee as <-. vm_compute. discriminate.
Qed.

(** ** dirichlet_regions *)

Lemma label_range (f : list (list Flt)) (i : nat) :
  (i < length f)%nat -> (0 <= label f i)%Q /\ (label f i < 1)%Q.
Proof.
  intros Hi. unfold label.
  assert (Hpos : (0 < inject_Z (Z.of_nat (length f)))%Q).
  { change 0%Q with (inject_Z 0). rewrite <- Zlt_Qlt. lia. }
  split.
  - apply Qle_shift_div_l; [exact Hpos|]. rewrite Qmult_0_l.
    change 0%Q with (inject_Z 0). rewrite <- Zle_Qle. lia.
  - apply Qlt_shift_div_r; [exact Hpos|]. rewrite Qmult_1_l.
    rewrite <- Zlt_Qlt. lia.
Qed.

Lemma first_argmax_unique (f : list (list Flt)) (vi i j : nat) :
  first_argmax f vi i -> first_argmax f vi j -> i = j.
Proof.
  intros (Hi & Hmax & Hfirst) (Hj & Hmax' & Hfirst').
  destruct (lt_eq_lt_dec i j) as [[Hlt|Heq]|Hgt]; [|exact Heq|].
  - exfalso. specialize (Hfirst' i Hlt). specialize (Hmax j Hj). lra.
  - exfalso. specialize (Hfirst j Hgt). specialize (Hmax' i Hi). lra.
Qed.

Lemma region_field_fold (f : list (list Flt)) (vi len start : nat) (acc : Flt * list Flt) :
  let r := foldl (region_field f vi) acc (seq start len) in
  (r = acc /\ forall j, (start <= j < start + len)%nat -> (fget f j vi <= fst acc)%Q)
  \/ exists i,
       (start <= i < start + len)%nat
       /\ r = (fget f i vi, <[vi := label f i]> (snd acc))
       /\ (fst acc < fget f i vi)%Q
       /\ (forall j, (start <= j < start + len)%nat -> (fget f j vi <= fget f i vi)%Q)
       /\ (forall j, (start <= j < i)%nat -> (fget f j vi < fget f i vi)%Q).
Proof.
  revert start acc. induction len as [|len IH]; intros start acc; cbn zeta.
  - left. split; [reflexivity|]. intros j Hj. lia.
  - cbn [seq foldl].
    specialize (IH (S start) (region_field f vi acc start)). cbn zeta in IH.
    set (r := foldl (region_field f vi) (region_field f vi acc start) (seq (S start) len))
      in *.
    assert (Hstep : (region_field f vi acc start
                     = (fget f start vi, <[vi := label f start]> (snd acc))
                     /\ (fst acc < fget f start vi)%Q)
                    \/ (region_field f vi acc start = acc
                        /\ (fget f start vi <= fst acc)%Q)).
    { unfold region_field, label.
      destruct (Flt_gtb (fget f start vi) (fst acc)) eqn:E.
      - apply Flt_gtb_gt in E. now left.
      - apply Flt_ltb_ge in E. now right. }
    destruct Hstep as [[Hs E]|[Hs E]]; rewrite Hs in IH; cbn [fst snd] in IH.
    + destruct IH as [[-> Hall]|(i & Hi & -> & Hlt & Hall & Hfirst)].
      * right. exists start. repeat split; try lia; auto.
        intros j Hj. destruct (decide (j = start)) as [->|]; [apply Qle_refl|].
        apply Hall. lia.
      * right. exists i. repeat split; try lia.
        -- now rewrite list_insert_insert_eq.
        -- lra.
        -- intros j Hj. destruct (decide (j = start)) as [->|]; [lra|]. apply Hall. lia.
        -- intros j Hj. destruct (decide (j = start)) as [->|]; [lra|]. apply Hfirst. lia.
    + destruct IH as [[-> Hall]|(i & Hi & -> & Hlt & Hall & Hfirst)].
      * left. split; [reflexivity|].
        intros j Hj. destruct (decide (j = start)) as [->|]; [exact E|]. apply Hall. lia.
      * right. exists i. repeat split; try lia; auto.
        -- intros j Hj. destruct (decide (j = start)) as [->|]; [lra|]. apply Hall. lia.
        -- intros j Hj. destruct (decide (j = start)) as [->|]; [lra|]. apply Hfirst. lia.
Qed.

Lemma region_hex_cases (f : list (list Flt)) (rtn : list Flt) (h : Hex.t) :
  (region_hex f rtn h = rtn
   /\ forall j, (j < length f)%nat -> (fget f j (Hex.vi h) <= - seed_1e7)%Q)
  \/ exists i,
       region_hex f rtn h = <[Hex.vi h := label f i]> rtn
       /\ first_argmax f (Hex.vi h) i
       /\ (- seed_1e7 < fget f i (Hex.vi h))%Q.
Proof.
  unfold region_hex.
  destruct (region_field_fold f (Hex.vi h) (length f) 0 (Qopp seed_1e7, rtn))
    as [[-> Hall]|(i & Hi & -> & Hlt & Hall & Hfirst)]; cbn [fst snd] in *.
  - left. split; [reflexivity|]. intros j Hj. apply Hall. lia.
  - right. exists i. split; [reflexivity|]. split; [|exact Hlt].
    repeat split; [lia| |].
    + intros j Hj. apply Hall. lia.
    + intros j Hj. apply Hfirst. lia.
Qed.

Lemma region_hex_length (f : list (list Flt)) (rtn : list Flt) (h : Hex.t) :
  length (region_hex f rtn h) = length rtn.
Proof.
  destruct (region_hex_cases f rtn h) as [[-> _]|(i & -> & _)];
    [reflexivity | apply length_insert].
Qed.

Lemma region_hex_other (f : list (list Flt)) (rtn : list Flt) (h : Hex.t) (k : nat) :
  k <> Hex.vi h -> region_hex f rtn h !! k = rtn !! k.
Proof.
  intros Hne. destruct (region_hex_cases f rtn h) as [[-> _]|(i & -> & _)];
    [reflexivity | now apply list_lookup_insert_ne].
Qed.

Lemma regions_fold_length (f : list (list Flt)) (l : list Hex.t) (rtn : list Flt) :
  length (foldl (region_hex f) rtn l) = length rtn.
Proof.
  revert rtn. induction l as [|h l IH]; intros rtn; [reflexivity|].
  cbn [foldl]. rewrite IH. apply region_hex_length.
Qed.

Lemma regions_fold_other (f : list (list Flt)) (l : list Hex.t) (rtn : list Flt) (k : nat) :
  k ∉ Hex.vi <$> l -> foldl (region_hex f) rtn l !! k = rtn !! k.
Proof.
  revert rtn. induction l as [|h l IH]; intros rtn Hk; [reflexivity|].
  cbn [foldl]. rewrite fmap_cons in Hk. apply not_elem_of_cons in Hk as [Hne Hk].
  rewrite IH by exact Hk. now apply region_hex_other.
Qed.

Lemma regions_fold_range (f : list (list Flt)) (l : list Hex.t) (rtn : list Flt) :
  Forall (fun v => (0 <= v)%Q /\ (v < 1)%Q) rtn ->
  Forall (fun v => (0 <= v)%Q /\ (v < 1)%Q) (foldl (region_hex f) rtn l).
Proof.
  revert rtn. induction l as [|h l IH]; intros rtn Hr; [exact Hr|].
  cbn [foldl]. apply IH.
  destruct (region_hex_cases f rtn h) as [[-> _]|(i & -> & (Hi & _) & _)]; [exact Hr|].
  apply Forall_insert; [exact Hr|]. now apply label_range.
Qed.

(** The labelling is as documented for fields above the seed, and stays within
    [0, 1) in any case. *)
Lemma dirichlet_regions_label (hg : HexGrid.t) (f : list (list Flt)) (h : Hex.t) (i : nat) :
  NoDup (Hex.vi <$> HexGrid.hexen hg) ->
  h ∈ HexGrid.hexen hg ->
  (Hex.vi h < length (default [] (f !! 0%nat)))%nat ->
  first_argmax f (Hex.vi h) i ->
  (- seed_1e7 < fget f i (Hex.vi h))%Q ->
  dirichlet_regions hg f !! Hex.vi h = Some (label f i).
Proof.
  intros Hnd Hin Hvi Harg Hseed. unfold dirichlet_regions.
  apply list_elem_of_split in Hin as (l1 & l2 & Hl). rewrite Hl in Hnd |- *.
  rewrite fmap_app, fmap_cons in Hnd.
  apply NoDup_app in Hnd as (_ & _ & Hnd). apply NoDup_cons in Hnd as [Hnot _].
  rewrite foldl_app. cbn [foldl]. rewrite regions_fold_other by exact Hnot.
  set (rtn1 := foldl (region_hex f) _ l1).
  assert (Hlen : length rtn1 = length (default [] (f !! 0%nat))).
  { unfold rtn1. now rewrite regions_fold_length, length_replicate. }
  destruct (region_hex_cases f rtn1 h) as [[_ Hall]|(i' & -> & Harg' & _)].
  - exfalso. destruct Harg as (Hi & _). specialize (Hall i Hi). lra.
  - rewrite (first_argmax_unique _ _ _ _ Harg Harg').
    apply list_lookup_insert_eq. lia.
Qed.

Lemma dirichlet_regions_range (hg : HexGrid.t) (f : list (list Flt)) (k : nat) (v : Flt) :
  dirichlet_regions hg f !! k = Some v -> (0 <= v)%Q /\ (v < 1)%Q.
Proof.
  intros H. unfold dirichlet_regions in H.
  assert (Hinit : Forall (fun v => (0 <= v)%Q /\ (v < 1)%Q)
                         (replicate (length (default [] (f !! 0%nat))) 0%Q)).
  { apply Forall_forall. intros x Hx. apply elem_of_replicate in Hx as [-> _].
    split; [apply Qle_refl | reflexivity]. }
  pose proof (regions_fold_range f (HexGrid.hexen hg) _ Hinit) as HF.
  rewrite Forall_lookup in HF. exact (HF k v H).
Qed.

(** C4 at an input below the seed.  On a grid of one hex with the two fields
    at [-3e7] and [-2e7], the second field is the first and only maximum, so
    the label ought to be 1/2; the running maximum starts at [-1e7], is never
    exceeded, and the label stays at its initial 0. *)
Theorem dirichlet_regions_seed_hides_maximum :
  first_argmax Samples.deep 0 1
  /\ dirichlet_regions Samples.lone Samples.deep = [0%Q]
  /\ ~ (0 == inject_Z (Z.of_nat 1) / inject_Z (Z.of_nat (length Samples.deep)))%Q.
Proof.
  split; [|split].
  - unfold first_argmax. split; [cbn; lia|]. split.
    + intros j Hj. cbn in Hj.
      destruct j as [|[|j]]; [discriminate | apply Qle_refl | lia].
    + intros j Hj. destruct j as [|j]; [reflexivity | lia].
  - reflexivity.
  - discriminate.
Qed.

(** ** Outcomes *)

Lemma obind_Ret {A B : Type} (m : outcome A) (k : A -> outcome B) (b : B) :
  obind m k = Ret b -> exists a, m = Ret a /\ k a = Ret b.
Proof. destruct m; cbn; try discriminate. eauto. Qed.

Lemma must_Ret {A : Type} (o : option A) (a : A) : must o = Ret a -> o = Some a.
Proof. destruct o; cbn; congruence. Qed.

Lemma ofold_appends {A B : Type} (P : A -> Prop)
    (step : list A -> B -> outcome (list A)) (l : list B) :
  (forall a b a', step a b = Ret a' -> exists new, a' = a ++ new /\ Forall P new) ->
  forall a a', ofold step l a = Ret a' -> exists new, a' = a ++ new /\ Forall P new.
Proof.
  intros Hstep. induction l as [|b l IH]; intros a a' H; cbn in H.
  - injection H as <-. exists []. now rewrite app_nil_r.
  - apply obind_Ret in H as (a1 & H1 & H).
    apply Hstep in H1 as (new1 & -> & Hn1).
    apply IH in H as (new2 & -> & Hn2).
    exists (new1 ++ new2). rewrite app_assoc. split; [reflexivity|].
    now apply Forall_app.
Qed.

(** ** The walks *)

Section WalkFacts.
Context {G : Geometry}.
Variable hg : HexGrid.t.
Variable f : list Flt.

Lemma walk_to_next_vtx (fuel : nat) (v : DirichVtx.t) (nnd : Flt) (nnc : coord) (w : walked) :
  walk_to_next hg f fuel v nnd nnc = Ret w ->
  w_vtx w = DirichVtx.set_pathto_next (DirichVtx.pathto_next (w_vtx w)) v.
Proof.
  unfold walk_to_next.
  destruct (walk_common hg f _ nnc fuel v _) as [r| | |]; cbn; try discriminate.
  intros [= <-]. reflexivity.
Qed.

Lemma walk_to_neighbour_vtx (fuel : nat) (v : DirichVtx.t) (nnd : Flt) (nnc : coord)
    (w : walked) :
  walk_to_neighbour hg f fuel v nnd nnc = Ret w ->
  w_vtx w = DirichVtx.set_pathto_neighbour (DirichVtx.pathto_neighbour (w_vtx w)) v.
Proof.
  unfold walk_to_neighbour.
  destruct (_ || _).
  - intros [= <-]. now destruct v.
  - destruct (walk_common hg f _ nnc fuel v _) as [r| | |]; cbn; try discriminate.
    intros [= <-]. reflexivity.
Qed.

End WalkFacts.

(** C10.  A vertex whose neighbour pair holds the sentinel [-1] in either
    position is not walked from: whatever the grid, the identity field and the
    iterations allowed to a walk (none at all included), [walk_to_neighbour]
    returns the coordinate (0,0) and leaves the vertex with its
    [pathto_neighbour] buffer, [next_neighb_dom] and [next_neighb_coord] as
    they were. *)
Theorem walk_to_neighbour_sentinel {G : Geometry} (hg : HexGrid.t) (f : list Flt)
    (fuel : nat) (v : DirichVtx.t) (nnd : Flt) (nnc : coord) :
  (fst (DirichVtx.neighb v) == sentinel)%Q \/ (snd (DirichVtx.neighb v) == sentinel)%Q ->
  walk_to_neighbour hg f fuel v nnd nnc = Ret (mkWalked (0%Q, 0%Q) v nnd nnc).
Proof.
  intros H. unfold walk_to_neighbour.
  destruct H as [H|H]; apply Flt_eqb_eq in H; rewrite H;
    [reflexivity | now rewrite orb_true_r].
Qed.

(** C10 for the first candidate of the rosette, a boundary vertex, with no
    iteration allowed to a walk. *)
Lemma walk_to_neighbour_sentinel_witness :
  ((fst (DirichVtx.neighb Samples.corner_sw) == sentinel)%Q
   \/ (snd (DirichVtx.neighb Samples.corner_sw) == sentinel)%Q)
  /\ walk_to_neighbour Lattice.rosette Lattice.seven_ids 0 Samples.corner_sw
                       Flt_max coord_unset
     = Ret (mkWalked (0%Q, 0%Q) Samples.corner_sw Flt_max coord_unset).
Proof.
  assert (H : (fst (DirichVtx.neighb Samples.corner_sw) == sentinel)%Q
              \/ (snd (DirichVtx.neighb Samples.corner_sw) == sentinel)%Q).
  { right. reflexivity. }
  split; [exact H|].
  exact (walk_to_neighbour_sentinel Lattice.rosette Lattice.seven_ids 0
           Samples.corner_sw Flt_max coord_unset H).
Defined.

(** ** The loops inside one iteration of walk_common end *)

Lemma obind_fuel {A B : Type} (m : outcome A) (k : A -> outcome B) :
  m <> OutOfFuel -> (forall a, m = Ret a -> k a <> OutOfFuel) -> obind m k <> OutOfFuel.
Proof. destruct m; cbn; auto; discriminate. Qed.

Lemma must_fuel {A : Type} (o : option A) : must o <> OutOfFuel.
Proof. destruct o; discriminate. Qed.

Lemma in_range_cases (d : Z) :
  in_range d -> d = 0 \/ d = 1 \/ d = 2 \/ d = 3 \/ d = 4 \/ d = 5.
Proof. unfold in_range. lia. Qed.

Lemma rot_step_to_go (rot : Rotn) (j l : Z) :
  in_range j -> in_range l -> j <> l ->
  in_range (rot_step rot j) /\ S (to_go rot (rot_step rot j) l) = to_go rot j l.
Proof.
  intros Hj Hl Hne.
  apply in_range_cases in Hj, Hl.
  destruct rot;
    destruct Hj as [->|[->|[->|[->|[->| ->]]]]];
    destruct Hl as [->|[->|[->|[->|[->| ->]]]]];
    try congruence; (split; [unfold in_range; vm_compute; intuition discriminate | reflexivity]).
Qed.

Lemma get_neighbour_range (h : Hex.t) (d : Z) (k : nat) :
  Hex.get_neighbour h d = Some k -> in_range d.
Proof.
  unfold in_range, Hex.get_neighbour.
  destruct d as [|[[[]|[]|]|[[]|[]|]|]|]; try discriminate; lia.
Qed.

Section Fuel.
Context {G : Geometry}.
Variable hg : HexGrid.t.
Variable f : list Flt.
Variable edgedoms : Flt * Flt.
Variable nnc : coord.

Lemma deref_fuel (it : nat) : deref hg it <> OutOfFuel.
Proof. apply must_fuel. Qed.

Lemma idget_fuel (k : nat) : idget f k <> OutOfFuel.
Proof. apply must_fuel. Qed.

Lemma hexid_fuel (it : nat) : hexid hg f it <> OutOfFuel.
Proof.
  unfold hexid. apply obind_fuel; [apply deref_fuel|]. intros. apply idget_fuel.
Qed.

Lemma first_dirn_range (ds : list Z) (hf : Hex.t) (vi0 : coord) (hx : nat) (fd : Z * nat) :
  Forall in_range ds ->
  first_dirn hg f edgedoms ds hf vi0 hx = Ret fd ->
  in_range (fst fd) \/ fst fd = int_max.
Proof.
  intros Hds. revert hx. induction Hds as [|i ds Hi Hds IH]; intros hx H; cbn in H.
  - injection H as <-. now right.
  - assert (Hn : in_range (next6 i) /\ in_range (prev6 i)).
    { apply in_range_cases in Hi.
      destruct Hi as [->|[->|[->|[->|[->| ->]]]]];
        split; unfold in_range; vm_compute; intuition discriminate. }
    destruct (compare_vertex_coord hf i vi0); [|eauto].
    apply obind_Ret in H as (r1 & _ & H).
    destruct (fst r1).
    { injection H as <-. left. apply Hn. }
    destruct (Hex.get_neighbour hf (prev6 i)).
    + apply obind_Ret in H as (fa & _ & H).
      destruct (Flt_eqb fa (fst edgedoms)); [|eauto].
      injection H as <-. left. apply Hn.
    + injection H as <-. left. apply Hn.
Qed.

Lemma first_dirn_fuel (ds : list Z) (hf : Hex.t) (vi0 : coord) (hx : nat) :
  first_dirn hg f edgedoms ds hf vi0 hx <> OutOfFuel.
Proof.
  revert hx. induction ds as [|i ds IH]; intros hx; cbn; [discriminate|].
  destruct (compare_vertex_coord hf i vi0); [|apply IH].
  apply obind_fuel.
  - destruct (Hex.get_neighbour hf (next6 i)); [|discriminate].
    apply obind_fuel; [apply hexid_fuel | discriminate].
  - intros r1 _. destruct (fst r1); [discriminate|].
    destruct (Hex.get_neighbour hf (prev6 i)); [|discriminate].
    apply obind_fuel; [apply hexid_fuel|].
    intros fa _. destruct (Flt_eqb fa (fst edgedoms)); [discriminate | apply IH].
Qed.

Lemma second_at_fuel (hf : Hex.t) (j : Z) (hn : nat) :
  second_at hg f edgedoms nnc hf j hn <> OutOfFuel.
Proof.
  unfold second_at. destruct (Hex.get_neighbour hf j); [|discriminate].
  apply obind_fuel; [apply deref_fuel|]. intros hb _.
  apply obind_fuel; [apply idget_fuel|]. intros fb _.
  destruct (Flt_eqb fb (snd edgedoms)); [|discriminate].
  destruct (_ && _); discriminate.
Qed.

Lemma second_at_found (hf : Hex.t) (j : Z) (hn hn' : nat) :
  second_at hg f edgedoms nnc hf j hn = Ret (true, hn') ->
  Hex.get_neighbour hf j = Some hn'.
Proof.
  unfold second_at. destruct (Hex.get_neighbour hf j) as [nb|]; [|discriminate].
  intros H. apply obind_Ret in H as (hb & _ & H). apply obind_Ret in H as (fb & _ & H).
  destruct (Flt_eqb fb (snd edgedoms)); [|discriminate].
  destruct (_ && _); congruence.
Qed.

Lemma find_second_fuel (hf : Hex.t) (d : Z) (hn : nat) :
  find_second hg f edgedoms nnc hf d hn <> OutOfFuel.
Proof.
  unfold find_second. apply obind_fuel; [apply second_at_fuel|]. intros r1 _.
  destruct (fst r1); [discriminate|].
  apply obind_fuel; [apply second_at_fuel|]. intros r2 _.
  destruct (fst r2); discriminate.
Qed.

(** When the second hex is found it is the neighbour of [hexit_first] in the
    direction returned, one of the two that flank [d]. *)
Lemma find_second_found (hf : Hex.t) (d sd : Z) (hn hn' : nat) :
  find_second hg f edgedoms nnc hf d hn = Ret (Some sd, hn') ->
  (sd = next6 d \/ sd = prev6 d) /\ Hex.get_neighbour hf sd = Some hn'.
Proof.
  unfold find_second. intros H.
  apply obind_Ret in H as ([b1 n1] & H1 & H). cbn [fst snd] in H.
  destruct b1.
  - injection H as <- <-. split; [now left|]. eapply second_at_found; eauto.
  - apply obind_Ret in H as ([b2 n2] & H2 & H). cbn [fst snd] in H.
    destruct b2; [|discriminate].
    injection H as <- <-. split; [now right|]. eapply second_at_found; eauto.
Qed.

Lemma rotation_range (d sd : Z) :
  in_range sd -> in_range d \/ d = int_max -> sd = next6 d \/ sd = prev6 d ->
  let rh := rotation d sd in
  in_range (snd rh) /\ in_range (last_dirn (fst rh) (snd rh))
  /\ (to_go (fst rh) (snd rh) (last_dirn (fst rh) (snd rh)) <= 5)%nat.
Proof.
  intros Hsd [Hd| ->] Hflank.
  - apply in_range_cases in Hd.
    destruct Hd as [->|[->|[->|[->|[->| ->]]]]];
      destruct Hflank as [-> | ->];
      (split; [|split]; [unfold in_range; vm_compute; intuition discriminate ..
                        | vm_compute; lia]).
  - exfalso. unfold in_range in Hsd.
    destruct Hflank as [-> | ->]; vm_compute in Hsd; intuition congruence.
Qed.

Lemma rotate_fuel (n : nat) (rot : Rotn) (l j : Z) (st : wstate) (hexit_last : nat) :
  in_range j -> in_range l -> (to_go rot j l <= n)%nat ->
  rotate hg f edgedoms n rot l j st hexit_last <> OutOfFuel.
Proof.
  revert j st hexit_last. induction n as [|n IH]; intros j st hexit_last Hj Hl Hgo.
  - cbn [rotate]. destruct (j =? l) eqn:E; [discriminate|].
    apply Z.eqb_neq in E.
    destruct (rot_step_to_go rot j l Hj Hl E) as [_ Hs]. lia.
  - cbn [rotate]. destruct (j =? l) eqn:E; [discriminate|].
    apply Z.eqb_neq in E.
    destruct (rot_step_to_go rot j l Hj Hl E) as [Hr Hs].
    apply obind_fuel; [apply deref_fuel|]. intros hx _.
    destruct (Hex.get_neighbour hx j); [|discriminate].
    apply obind_fuel; [apply deref_fuel|]. intros hn _.
    apply obind_fuel; [apply idget_fuel|]. intros fn _.
    destruct (Flt_eqb fn (snd edgedoms)).
    + apply IH; auto. lia.
    + destruct (Flt_eqb fn (fst edgedoms)); discriminate.
Qed.

(** One iteration of the [while] loop ends: the six iterations allowed to the
    loop rotating around [hexit] are never exhausted, so that [OutOfFuel] only
    ever stands for a [while] loop that has not finished. *)
Lemma walk_iter_fuel (st : wstate) : walk_iter hg f edgedoms nnc st <> OutOfFuel.
Proof.
  unfold walk_iter.
  apply obind_fuel; [apply deref_fuel|]. intros hf _.
  apply obind_fuel; [apply first_dirn_fuel|]. intros fd Hfd.
  apply obind_fuel; [apply find_second_fuel|]. intros sec Hsec.
  destruct sec as [[sd|] hn]; cbn [fst snd]; [|discriminate].
  apply find_second_found in Hsec as [Hflank Hnb].
  apply first_dirn_range in Hfd;
    [|repeat constructor; unfold in_range; lia].
  apply get_neighbour_range in Hnb.
  destruct (rotation_range (fst fd) sd Hnb Hfd Hflank) as (Hh & Hlast & Hgo).
  apply obind_fuel; [apply deref_fuel|]. intros hx _.
  destruct (decide _); [|discriminate].
  apply rotate_fuel; [exact Hh | exact Hlast | lia].
Qed.

End Fuel.

(** ** The path a walk writes *)

Section Path.
Context {G : Geometry}.
Variable hg : HexGrid.t.
Variable f : list Flt.
Variable edgedoms : Flt * Flt.
Variable nnc : coord.

Lemma rotate_path (n : nat) (rot : Rotn) (l j : Z) (st : wstate) (hexit_last : nat)
    (e : for_exit) :
  rotate hg f edgedoms n rot l j st hexit_last = Ret e -> extends (path st) e.
Proof.
  revert j st hexit_last. induction n as [|n IH]; intros j st hexit_last H;
    cbn [rotate] in H; destruct (j =? l);
    try (injection H as <-; exists []; cbn; now rewrite app_nil_r); [discriminate|].
  apply obind_Ret in H as (hx & _ & H).
  destruct (Hex.get_neighbour hx j) as [nxt|].
  - apply obind_Ret in H as (hn & _ & H). apply obind_Ret in H as (fn & _ & H).
    destruct (Flt_eqb fn (snd edgedoms)).
    + apply IH in H. cbn [path] in H.
      destruct e as [r|st']; cbn [extends] in *; destruct H as (mid & H);
        exists (get_vertex_coord hx (prev6 j) :: mid); rewrite H;
        now rewrite <- app_assoc.
    + destruct (Flt_eqb fn (fst edgedoms)); injection H as <-.
      * exists []. cbn. now rewrite app_nil_r.
      * exists []. reflexivity.
  - injection H as <-. exists []. reflexivity.
Qed.

Lemma walk_iter_path (st : wstate) (e : for_exit) :
  walk_iter hg f edgedoms nnc st = Ret e -> extends (path st) e.
Proof.
  unfold walk_iter. intros H.
  apply obind_Ret in H as (hf & _ & H). apply obind_Ret in H as (fd & _ & H).
  apply obind_Ret in H as (sec & _ & H).
  destruct (fst sec); [|discriminate].
  apply obind_Ret in H as (hx & _ & H).
  destruct (decide _); [|discriminate].
  now apply rotate_path in H.
Qed.

Lemma walk_loop_path (fuel : nat) (st : wstate) (r : walk_out) :
  walk_loop hg f edgedoms nnc fuel st = Ret r ->
  exists mid, out_path r = path st ++ mid ++ [next_one r].
Proof.
  revert st. induction fuel as [|fuel IH]; intros st H; [discriminate|].
  cbn [walk_loop] in H. apply obind_Ret in H as (e & He & H).
  apply walk_iter_path in He. destruct e as [r'|st'].
  - injection H as <-. exact He.
  - destruct He as (mid & Hp). apply IH in H as (mid' & ->). rewrite Hp.
    exists (mid ++ mid'). now rewrite <- !app_assoc.
Qed.

Lemma walk_init_path (v : DirichVtx.t) (pth : list coord) (st : wstate) :
  walk_init hg f edgedoms v pth = Ret st -> path st = pth.
Proof.
  unfold walk_init. intros H.
  apply obind_Ret in H as (hf & _ & H). apply obind_Ret in H as (f0 & _ & H).
  destruct (Flt_eqb f0 (fst edgedoms)); [|now injection H as <-].
  apply obind_Ret in H as ([nb|] & _ & H); now injection H as <-.
Qed.

(** A walk that returns has appended to the path buffer, and the coordinate
    it returns is the last one appended. *)
Lemma walk_common_path (fuel : nat) (v : DirichVtx.t) (pth : list coord) (r : walk_out) :
  walk_common hg f edgedoms nnc fuel v pth = Ret r ->
  exists mid, out_path r = pth ++ mid ++ [next_one r].
Proof.
  unfold walk_common. intros H. apply obind_Ret in H as (st & Hi & H).
  apply walk_init_path in Hi as <-. now apply walk_loop_path in H.
Qed.

End Path.

Lemma walk_to_next_path {G : Geometry} (hg : HexGrid.t) (f : list Flt) (fuel : nat)
    (v : DirichVtx.t) (nnd : Flt) (nnc : coord) (w : walked) :
  walk_to_next hg f fuel v nnd nnc = Ret w ->
  exists mid,
    DirichVtx.pathto_next (w_vtx w) = DirichVtx.pathto_next v ++ mid ++ [w_coord w].
Proof.
  unfold walk_to_next. intros H. apply obind_Ret in H as (r & Hr & H).
  injection H as <-. cbn. eapply walk_common_path; eauto.
Qed.

(** ** Closed flags *)

Lemma closed_kept_refl (vs : list DirichVtx.t) : closed_kept vs vs.
Proof. intros i c Hi Hc. eauto. Qed.

Lemma closed_kept_trans (vs1 vs2 vs3 : list DirichVtx.t) :
  closed_kept vs1 vs2 -> closed_kept vs2 vs3 -> closed_kept vs1 vs3.
Proof.
  intros H12 H23 i c Hi Hc.
  destruct (H12 i c Hi Hc) as (c' & Hi' & Hc'). eauto.
Qed.

Lemma closed_kept_alter (vs : list DirichVtx.t) (dv : nat) :
  closed_kept vs (alter (DirichVtx.set_closed true) dv vs).
Proof.
  intros i c Hi Hc. destruct (decide (i = dv)) as [->|Hne].
  - exists (DirichVtx.set_closed true c). split; [|reflexivity].
    rewrite list_lookup_alter_eq, Hi. reflexivity.
  - exists c. split; [|exact Hc]. rewrite list_lookup_alter_ne by congruence. exact Hi.
Qed.

Lemma closed_kept_app (vs new : list DirichVtx.t) : closed_kept vs (vs ++ new).
Proof.
  intros i c Hi Hc. exists c. split; [|exact Hc]. now apply lookup_app_l_Some.
Qed.

Section DomainFacts.
Context {G : Geometry}.
Variable hg : HexGrid.t.
Variable f : list Flt.

(** One call of [process_domain], case by case. *)
Ltac pd_cases H :=
  cbn [process_domain] in H;
  match type of H with
  | context [vertices ?st !! ?dv] =>
      destruct (vertices st !! dv) as [v|] eqn:Ev; [|injection H as <-];
      [ destruct (walk_to_next hg f _ v Flt_max (p_ncoord st)) as [w|m| |] eqn:Ew;
        [ cbv zeta in H;
          match type of H with
          | context [vtx_compare ?a ?b] =>
              destruct (vtx_compare a b) eqn:Ecmp; [injection H as <-|]
          end;
          [ | match type of H with
              | context [search_next ?a ?b ?c ?d] =>
                  destruct (search_next a b c d) as [[dv2 c2]|] eqn:Es;
                  [ destruct (DirichVtx.onBoundary c2) eqn:Eb; [injection H as <-|]
                  | injection H as <- ]
              end ]
        | injection H as <- | injection H as <- | injection H as <- ]
      | ]
  end.

Lemma process_domain_length (depth wf dv : nat) (st : pstate) (first : DirichVtx.t)
    (res : outcome bool * pstate) :
  process_domain hg f depth wf dv st first = Some res ->
  length (vertices (snd res)) = length (vertices st).
Proof.
  revert dv st first. induction depth as [|depth IH]; intros dv st first H; [discriminate|].
  pd_cases H; cbn [snd vertices]; try reflexivity; try apply length_alter.
  apply IH in H. rewrite H. cbn [vertices]. apply length_alter.
Qed.

Lemma process_domain_closed_kept (depth wf dv : nat) (st : pstate) (first : DirichVtx.t)
    (res : outcome bool * pstate) :
  process_domain hg f depth wf dv st first = Some res ->
  closed_kept (vertices st) (vertices (snd res)).
Proof.
  revert dv st first. induction depth as [|depth IH]; intros dv st first H; [discriminate|].
  pd_cases H; cbn [snd vertices];
    try apply closed_kept_refl; try apply closed_kept_alter.
  apply IH in H. eapply closed_kept_trans; [apply closed_kept_alter | exact H].
Qed.


(** *** What vertex_test appends *)

Lemma boundary_step_appends (it : nat) (h : Hex.t) (self : Flt)
    (vs vs' : list DirichVtx.t) (ni : Z) :
  boundary_step hg f it h self vs ni = Ret vs' ->
  exists new, vs' = vs ++ new /\ Forall (boundary_made it) new.
Proof.
  unfold boundary_step. intros H.
  destruct (Hex.has_neighbour h ni); [|injection H as <-; exists []; now rewrite app_nil_r].
  apply obind_Ret in H as (fn & _ & H).
  destruct (negb (Flt_eqb fn self)); [|injection H as <-; exists []; now rewrite app_nil_r].
  destruct (negb (Hex.has_neighbour h (next6 ni))).
  { injection H as <-. eexists; (split; [reflexivity|]).
    constructor; [|constructor]. unfold boundary_made; cbn; auto 10. }
  destruct (negb (Hex.has_neighbour h (prev6 ni))).
  { injection H as <-. eexists; (split; [reflexivity|]).
    constructor; [|constructor]. unfold boundary_made; cbn; auto 10. }
  injection H as <-; exists []; now rewrite app_nil_r.
Qed.

Lemma interior_step_appends (it : nat) (h : Hex.t) (self : Flt)
    (vs vs' : list DirichVtx.t) (ni : Z) :
  interior_step hg f it h self vs ni = Ret vs' ->
  exists new, vs' = vs ++ new /\ Forall (interior_made it) new.
Proof.
  unfold interior_step. intros H.
  destruct (Hex.has_neighbour h ni); [|injection H as <-; exists []; now rewrite app_nil_r].
  apply obind_Ret in H as (f1 & _ & H).
  destruct (negb (Flt_eqb f1 self)); [|injection H as <-; exists []; now rewrite app_nil_r].
  destruct (Hex.has_neighbour h (next6 ni));
    [|injection H as <-; exists []; now rewrite app_nil_r].
  apply obind_Ret in H as (f2 & _ & H).
  destruct (_ && _); injection H as <-.
  - eexists; (split; [reflexivity|]).
    constructor; [|constructor]. unfold interior_made; cbn; auto.
  - exists []; now rewrite app_nil_r.
Qed.

Lemma vertex_test_appends (it : nat) (vs vs' : list DirichVtx.t) :
  vertex_test hg f it vs = Ret vs' ->
  exists h bnd tri,
    HexGrid.hexen hg !! it = Some h
    /\ vs' = vs ++ bnd ++ tri
    /\ Forall (boundary_made it) bnd
    /\ Forall (interior_made it) tri
    /\ (Hex.boundaryHex h = false -> bnd = []).
Proof.
  unfold vertex_test. intros H.
  apply obind_Ret in H as (h & Hh & H).
  apply must_Ret in Hh.
  apply obind_Ret in H as (self & _ & H).
  apply obind_Ret in H as (n_ids & _ & H).
  exists h.
  destruct (_ || _).
  - apply obind_Ret in H as (vs1 & H1 & H).
    apply (ofold_appends (interior_made it)) in H as (tri & -> & Htri);
      [|intros; eapply interior_step_appends; eauto].
    destruct (Hex.boundaryHex h) eqn:Eb.
    + apply (ofold_appends (boundary_made it)) in H1 as (bnd & -> & Hbnd);
        [|intros; eapply boundary_step_appends; eauto].
      exists bnd, tri. rewrite app_assoc. repeat split; auto. discriminate.
    + injection H1 as <-. exists [], tri. repeat split; auto.
  - injection H as <-. exists [], []. rewrite app_nil_r. repeat split; auto.
Qed.

Lemma scan_hexen_appends (vs vs' : list DirichVtx.t) :
  scan_hexen hg f vs = Ret vs' -> exists new, vs' = vs ++ new /\ Forall (fun _ => True) new.
Proof.
  unfold scan_hexen. apply ofold_appends.
  intros a it a' H. apply vertex_test_appends in H as (h & bnd & tri & _ & -> & _).
  exists (bnd ++ tri). split; [reflexivity|]. apply Forall_forall. auto.
Qed.

(** *** The loop of dirichlet_vertices *)

Lemma closure_loop_closed_kept (fuel wf dv dc : nat) (vs : list DirichVtx.t)
    (doms : list (list DirichVtx.t))
    (res : outcome (list (list DirichVtx.t)) * list DirichVtx.t) :
  closure_loop hg f fuel wf dv dc vs doms = Some res -> closed_kept vs (snd res).
Proof.
  revert dv dc vs doms. induction fuel as [|fuel IH]; intros dv dc vs doms H;
    cbn [closure_loop] in H;
    (destruct (_ && _); [|injection H as <-; apply closed_kept_refl]);
    [discriminate|].
  destruct (vs !! dv) as [c|]; [|injection H as <-; apply closed_kept_refl].
  destruct (HexGrid.hexen hg !! DirichVtx.hi c) as [h|];
    [|injection H as <-; apply closed_kept_refl].
  destruct (Hex.boundaryHex h).
  - apply IH in H. eapply closed_kept_trans; [apply closed_kept_alter | exact H].
  - destruct (process_domain hg f (length vs) wf dv _ vtx_default) as [[r st]|] eqn:Ep;
      [|discriminate].
    apply process_domain_closed_kept in Ep. cbn [snd vertices] in Ep.
    destruct r as [b|m| |]; try (injection H as <-; exact Ep).
    apply IH in H. eapply closed_kept_trans; eauto.
Qed.

Lemma dirichlet_vertices_closed_kept (wf : nat) (vs : list DirichVtx.t)
    (res : outcome (list (list DirichVtx.t)) * list DirichVtx.t) :
  dirichlet_vertices hg f wf vs = Some res -> closed_kept vs (snd res).
Proof.
  unfold dirichlet_vertices. intros H.
  destruct (scan_hexen hg f vs) as [vs1|m| |] eqn:Es;
    try (injection H as <-; apply closed_kept_refl).
  apply scan_hexen_appends in Es as (new & -> & _).
  apply closure_loop_closed_kept in H.
  eapply closed_kept_trans; [apply closed_kept_app | exact H].
Qed.

End DomainFacts.

(** C8.  The closed flag of a candidate is never reset: a walk returns the
    vertex with the flag it had, and a candidate that is closed before a call
    of [process_domain] or of [dirichlet_vertices] is closed after it, however
    the call ends. *)
Theorem closed_is_monotonic {G : Geometry} (hg : HexGrid.t) (f : list Flt) :
  (forall fuel v nnd nnc w,
      walk_to_next hg f fuel v nnd nnc = Ret w ->
      DirichVtx.closed (w_vtx w) = DirichVtx.closed v)
  /\ (forall fuel v nnd nnc w,
         walk_to_neighbour hg f fuel v nnd nnc = Ret w ->
         DirichVtx.closed (w_vtx w) = DirichVtx.closed v)
  /\ (forall depth wf dv st first res,
         process_domain hg f depth wf dv st first = Some res ->
         closed_kept (vertices st) (vertices (snd res)))
  /\ (forall wf vs res,
         dirichlet_vertices hg f wf vs = Some res -> closed_kept vs (snd res)).
Proof.
  repeat split.
  - intros fuel v nnd nnc w H. apply walk_to_next_vtx in H. now rewrite H.
  - intros fuel v nnd nnc w H. apply walk_to_neighbour_vtx in H. now rewrite H.
  - intros. eapply process_domain_closed_kept; eauto.
  - intros. eapply dirichlet_vertices_closed_kept; eauto.
Qed.

(** C8 on the rosette: a closure attempt from candidate 12, made on the list
    that [dirichlet_vertices] left with three candidates closed, keeps them
    closed. *)
Lemma closed_is_monotonic_witness :
  exists res,
    process_domain Lattice.rosette Lattice.seven_ids 6 20 12
                   (mkP Samples.left_over [] coord_unset) vtx_default = Some res
    /\ unclosed Samples.left_over = 27%nat
    /\ closed_kept Samples.left_over (vertices (snd res)).
Proof.
  destruct (process_domain Lattice.rosette Lattice.seven_ids 6 20 12
              (mkP Samples.left_over [] coord_unset) vtx_default) as [res|] eqn:E;
    [|vm_compute in E; discriminate].
  exists res. split; [reflexivity|]. split; [vm_compute; reflexivity|].
  exact (proj1 (proj2 (proj2 (closed_is_monotonic Lattice.rosette Lattice.seven_ids)))
               6%nat 20%nat 12%nat (mkP Samples.left_over [] coord_unset) vtx_default
               res E).
Defined.

(** ** Unclosed candidates and the depth of the recursion *)

Lemma unclosed_le_length (vs : list DirichVtx.t) : (unclosed vs <= length vs)%nat.
Proof.
  induction vs as [|c l IH]; cbn; [lia|]. destruct (DirichVtx.closed c); lia.
Qed.

Lemma unclosed_alter (vs : list DirichVtx.t) (i : nat) (c : DirichVtx.t) :
  vs !! i = Some c ->
  (unclosed (alter (DirichVtx.set_closed true) i vs)
   + (if DirichVtx.closed c then 0 else 1) = unclosed vs)%nat.
Proof.
  revert i. induction vs as [|a l IH]; intros i H; [discriminate|].
  destruct i as [|i]; cbn in H.
  - injection H as ->. cbn. destruct (DirichVtx.closed c); lia.
  - cbn. apply IH in H. lia.
Qed.

Lemma unclosed_alter_lt (vs : list DirichVtx.t) (i : nat) (c : DirichVtx.t) :
  vs !! i = Some c ->
  (unclosed (alter (DirichVtx.set_closed true) i vs) < length vs)%nat.
Proof.
  revert i. induction vs as [|a l IH]; intros i H; [discriminate|].
  destruct i as [|i]; cbn in H.
  - cbn. pose proof (unclosed_le_length l). lia.
  - cbn. apply IH in H. destruct (DirichVtx.closed a); lia.
Qed.

Section DepthFacts.
Context {G : Geometry}.
Variable hg : HexGrid.t.
Variable f : list Flt.

Lemma next_match_continues (v : DirichVtx.t) (w : walked) (c : DirichVtx.t) :
  next_match v (w_coord w) (w_dom w) c = true <-> continues v w c.
Proof.
  unfold next_match, continues.
  rewrite !andb_true_iff, negb_true_iff, !Flt_eqb_eq. tauto.
Qed.

Lemma search_next_Some (v : DirichVtx.t) (w : walked) (vs : list DirichVtx.t)
    (j : nat) (c : DirichVtx.t) :
  search_next v (w_coord w) (w_dom w) vs = Some (j, c) <-> first_continuation v w vs j c.
Proof.
  unfold search_next, first_continuation. rewrite list_find_Some.
  rewrite next_match_continues.
  split; intros (H1 & H2 & H3); (split; [exact H1|split; [exact H2|]]);
    intros j' c' Hj' Hlt; specialize (H3 j' c' Hj' Hlt);
    now rewrite next_match_continues in *.
Qed.

Lemma search_next_None (v : DirichVtx.t) (w : walked) (vs : list DirichVtx.t) :
  search_next v (w_coord w) (w_dom w) vs = None <-> no_continuation v w vs.
Proof.
  unfold search_next, no_continuation. rewrite list_find_None, Forall_lookup.
  split; intros H j c Hj; specialize (H j c Hj); now rewrite next_match_continues in *.
Qed.

Lemma process_domain_enough (wf depth dv : nat) (st : pstate) (first : DirichVtx.t) :
  (unclosed (alter (DirichVtx.set_closed true) dv (vertices st)) < depth)%nat ->
  is_Some (process_domain hg f depth wf dv st first).
Proof.
  revert dv st first. induction depth as [|depth IH]; intros dv st first Hlt; [lia|].
  cbn [process_domain].
  destruct (vertices st !! dv) as [v|]; [|eauto].
  destruct (walk_to_next hg f wf v Flt_max (p_ncoord st)) as [w|m| |]; eauto.
  cbv zeta. destruct (vtx_compare _ _); [eauto|].
  destruct (search_next _ _ _ _) as [[dv2 c2]|] eqn:Es; [|eauto].
  destruct (DirichVtx.onBoundary c2); [eauto|].
  apply IH. cbn [vertices].
  apply search_next_Some in Es as (Hj & (Hc & _) & _). cbn [vertices] in Hj.
  pose proof (unclosed_alter _ _ _ Hj) as Hu. rewrite Hc in Hu. lia.
Qed.


End DepthFacts.

(** *** Where a call chain can run out of iterations *)

Section FuelFacts.
Context {G : Geometry}.
Variable hg : HexGrid.t.
Variable f : list Flt.



End FuelFacts.

(** *** A walk that does not end *)

Section Spin.
Context {G : Geometry}.
Variable hg : HexGrid.t.
Variable f : list Flt.
Variable edgedoms : Flt * Flt.
Variable nnc : coord.




End Spin.





(** That attempt takes six nested calls, one for each corner of the centre
    hex, and closes the six candidates the centre hex owns. *)
Lemma rosette_centre_closes :
  exists st',
    process_domain Lattice.rosette Lattice.seven_ids 6 20 12 Samples.fresh vtx_default
    = Some (Ret true, st')
    /\ process_domain Lattice.rosette Lattice.seven_ids 5 20 12 Samples.fresh vtx_default
       = None
    /\ length (domain st') = 6%nat
    /\ (unclosed (vertices st') + 6 = unclosed (vertices Samples.fresh))%nat.
Proof.
  destruct (process_domain Lattice.rosette Lattice.seven_ids 6 20 12 Samples.fresh
              vtx_default) as [[[[|]| | |] st']|] eqn:E;
    try (vm_compute in E; discriminate).
  exists st'. split; [reflexivity|].
  vm_compute in E. injection E as <-.
  repeat split; vm_compute; reflexivity.
Qed.

(** ** One call of process_domain, and the exceptions of a walk *)

Section StepFacts.
Context {G : Geometry}.
Variable hg : HexGrid.t.
Variable f : list Flt.

Lemma second_at_no_side (edgedoms : Flt * Flt) (nnc : coord) (hf : Hex.t) (j : Z) (hn : nat) :
  no_side hg f (snd edgedoms) hf j ->
  exists hn', second_at hg f edgedoms nnc hf j hn = Ret (false, hn').
Proof.
  unfold second_at. intros [Hnone|(nb & hb & fb & Hnb & Hhb & Hfb & Hne)].
  - rewrite Hnone. eauto.
  - rewrite Hnb. unfold deref, idget. rewrite Hhb. cbn [must obind].
    unfold Flt in *. rewrite Hfb. cbn [must obind].
    apply Flt_eqb_neq in Hne. rewrite Hne. eauto.
Qed.

Lemma find_second_no_side (edgedoms : Flt * Flt) (nnc : coord) (hf : Hex.t) (d : Z) (hn : nat) :
  no_side hg f (snd edgedoms) hf (next6 d) ->
  no_side hg f (snd edgedoms) hf (prev6 d) ->
  exists hn', find_second hg f edgedoms nnc hf d hn = Ret (None, hn').
Proof.
  intros H1 H2. unfold find_second.
  destruct (second_at_no_side edgedoms nnc hf _ hn H1) as (hn1 & ->). cbn [obind fst snd].
  destruct (second_at_no_side edgedoms nnc hf _ hn1 H2) as (hn2 & ->). cbn [obind fst snd].
  eauto.
Qed.

Lemma walk_iter_no_second (edgedoms : Flt * Flt) (nnc : coord) (st : wstate)
    (hf : Hex.t) (fd : Z * nat) :
  HexGrid.hexen hg !! hexit_first st = Some hf ->
  first_dirn hg f edgedoms dirs hf (v_init st) (hexit st) = Ret fd ->
  no_side hg f (snd edgedoms) hf (next6 (fst fd)) ->
  no_side hg f (snd edgedoms) hf (prev6 (fst fd)) ->
  walk_iter hg f edgedoms nnc st = Throw msg_second.
Proof.
  intros Hhf Hfd H1 H2. unfold walk_iter, deref. rewrite Hhf. cbn [must obind].
  rewrite Hfd. cbn [obind].
  destruct (find_second_no_side edgedoms nnc hf _ (hexit_neighb st) H1 H2) as (hn' & ->).
  reflexivity.
Qed.

Lemma walk_iter_wrong_side (edgedoms : Flt * Flt) (nnc : coord) (st : wstate)
    (hf hx : Hex.t) (fd : Z * nat) (sd : Z) (hn : nat) :
  HexGrid.hexen hg !! hexit_first st = Some hf ->
  first_dirn hg f edgedoms dirs hf (v_init st) (hexit st) = Ret fd ->
  find_second hg f edgedoms nnc hf (fst fd) (hexit_neighb st) = Ret (Some sd, hn) ->
  HexGrid.hexen hg !! snd fd = Some hx ->
  Hex.get_neighbour hx (snd (rotation (fst fd) sd)) <> Some hn ->
  walk_iter hg f edgedoms nnc st = Throw msg_wrong.
Proof.
  intros Hhf Hfd Hsec Hhx Hne. unfold walk_iter, deref.
  rewrite Hhf. cbn [must obind]. rewrite Hfd. cbn [obind]. rewrite Hsec. cbn [obind fst snd].
  rewrite Hhx. cbn [must obind].
  destruct (decide _) as [E|_]; [contradiction|reflexivity].
Qed.

Lemma walk_to_next_throw (wf : nat) (v : DirichVtx.t) (nnd : Flt) (nnc : coord) (m : string) :
  walk_common hg f (DirichVtx.f v, fst (DirichVtx.neighb v)) nnc wf v
              (DirichVtx.pathto_next v) = Throw m ->
  walk_to_next hg f wf v nnd nnc = Throw m.
Proof. unfold walk_to_next. now intros ->. Qed.

End StepFacts.

(** C6, as the code has it.  One call of [process_domain] on the candidate [v]
    at position [dv] walks to the next vertex first.  When the walk returns
    [w], the call sets the closed flag of [v], appends [v] (with the path of
    the walk) to the domain, and then: returns true when the coordinate walked to matches the start of the
    domain; otherwise looks for the first unclosed candidate at that
    coordinate with the domain identity of [v] and the neighbour pair
    (identity found by the walk, [v.neighb.first]), returns false when there is
    none or when it is a boundary vertex, and else continues from it.  Thus it
    returns true exactly when this walk or one of the walks that follow ends
    at the start of the domain. *)
Theorem process_domain_step {G : Geometry} (hg : HexGrid.t) (f : list Flt)
    (depth wf dv : nat) (st : pstate) (first v : DirichVtx.t) (w : walked) :
  vertices st !! dv = Some v ->
  walk_to_next hg f wf v Flt_max (p_ncoord st) = Ret w ->
  let start := if vtx_unset first then v else first in
  let st1 := mkP (alter (DirichVtx.set_closed true) dv (vertices st))
                 (domain st
                  ++ [DirichVtx.set_pathto_next (DirichVtx.pathto_next (w_vtx w)) v])
                 (w_ncoord w) in
  let run := process_domain hg f (S depth) wf dv st first in
  vertices st1 !! dv = Some (DirichVtx.set_closed true v)
  /\ (vtx_compare start (w_coord w) = true -> run = Some (Ret true, st1))
  /\ (vtx_compare start (w_coord w) = false ->
      no_continuation v w (vertices st1) -> run = Some (Ret false, st1))
  /\ (forall j c,
         vtx_compare start (w_coord w) = false ->
         first_continuation v w (vertices st1) j c ->
         (DirichVtx.onBoundary c = true -> run = Some (Ret false, st1))
         /\ (DirichVtx.onBoundary c = false ->
             run = process_domain hg f depth wf j st1 start))
  /\ (fst <$> run = Some (Ret true) <->
      vtx_compare start (w_coord w) = true
      \/ exists j c,
           first_continuation v w (vertices st1) j c
           /\ DirichVtx.onBoundary c = false
           /\ fst <$> process_domain hg f depth wf j st1 start = Some (Ret true)).
Proof.
  intros Hv Hw start st1 run.
  assert (Hrun : run =
                 if vtx_compare start (w_coord w) then Some (Ret true, st1)
                 else match search_next v (w_coord w) (w_dom w) (vertices st1) with
                      | None => Some (Ret false, st1)
                      | Some (dv2, c) =>
                          if DirichVtx.onBoundary c then Some (Ret false, st1)
                          else process_domain hg f depth wf dv2 st1 start
                      end).
  { unfold run. cbn [process_domain]. rewrite Hv, Hw. cbv zeta.
    unfold st1. now rewrite <- (walk_to_next_vtx hg f _ _ _ _ _ Hw). }
  split; [|split; [|split; [|split]]].
  - cbn [st1 vertices]. rewrite list_lookup_alter_eq, Hv. reflexivity.
  - intros E. now rewrite Hrun, E.
  - intros E Hno. apply search_next_None in Hno. now rewrite Hrun, E, Hno.
  - intros j c E Hfc. apply search_next_Some in Hfc. rewrite Hrun, E, Hfc.
    split; now intros ->.
  - rewrite Hrun. destruct (vtx_compare start (w_coord w)) eqn:E.
    { split; [now left | reflexivity]. }
    destruct (search_next v (w_coord w) (w_dom w) (vertices st1)) as [[dv2 c2]|] eqn:Es.
    + pose proof Es as Hfc. apply search_next_Some in Hfc.
      destruct (DirichVtx.onBoundary c2) eqn:Eb.
      * split; [discriminate|].
        intros [?|(j & c & Hfc' & Hb & _)]; [discriminate|].
        apply search_next_Some in Hfc'. rewrite Es in Hfc'.
        injection Hfc' as <- <-. congruence.
      * split.
        -- intros H. right. exists dv2, c2. auto.
        -- intros [?|(j & c & Hfc' & Hb & H)]; [discriminate|].
           apply search_next_Some in Hfc'. rewrite Es in Hfc'.
           now injection Hfc' as <- <-.
    + split; [discriminate|].
      intros [?|(j & c & Hfc' & _)]; [discriminate|].
      apply search_next_Some in Hfc'. rewrite Es in Hfc'. discriminate.
Qed.

(** C6 on the rosette: the first call made on candidate 12, the north-east
    corner of the centre hex, whose walk returns. *)
Lemma process_domain_step_witness :
  vertices Samples.fresh !! 12%nat = Some Samples.corner_ne
  /\ walk_to_next Lattice.rosette Lattice.seven_ids 20 Samples.corner_ne Flt_max
                  (p_ncoord Samples.fresh) = Ret Samples.walked_ne
  /\ (let start := if vtx_unset vtx_default then Samples.corner_ne else vtx_default in
      let st1 := mkP (alter (DirichVtx.set_closed true) 12%nat (vertices Samples.fresh))
                     (domain Samples.fresh
                      ++ [DirichVtx.set_pathto_next
                            (DirichVtx.pathto_next (w_vtx Samples.walked_ne))
                            Samples.corner_ne])
                     (w_ncoord Samples.walked_ne) in
      let run := process_domain Lattice.rosette Lattice.seven_ids 6 20 12
                                Samples.fresh vtx_default in
      vertices st1 !! 12%nat = Some (DirichVtx.set_closed true Samples.corner_ne)
      /\ (vtx_compare start (w_coord Samples.walked_ne) = true ->
          run = Some (Ret true, st1))
      /\ (vtx_compare start (w_coord Samples.walked_ne) = false ->
          no_continuation Samples.corner_ne Samples.walked_ne (vertices st1) ->
          run = Some (Ret false, st1))
      /\ (forall j c,
             vtx_compare start (w_coord Samples.walked_ne) = false ->
             first_continuation Samples.corner_ne Samples.walked_ne (vertices st1) j c ->
             (DirichVtx.onBoundary c = true -> run = Some (Ret false, st1))
             /\ (DirichVtx.onBoundary c = false ->
                 run = process_domain Lattice.rosette Lattice.seven_ids 5 20 j st1 start))
      /\ (fst <$> run = Some (Ret true) <->
          vtx_compare start (w_coord Samples.walked_ne) = true
          \/ exists j c,
               first_continuation Samples.corner_ne Samples.walked_ne (vertices st1) j c
               /\ DirichVtx.onBoundary c = false
               /\ fst <$> process_domain Lattice.rosette Lattice.seven_ids 5 20 j st1 start
                  = Some (Ret true))).
Proof.
  assert (Hv : vertices Samples.fresh !! 12%nat = Some Samples.corner_ne)
    by (vm_compute; reflexivity).
  assert (Hw : walk_to_next Lattice.rosette Lattice.seven_ids 20 Samples.corner_ne Flt_max
                            (p_ncoord Samples.fresh) = Ret Samples.walked_ne)
    by (vm_compute; reflexivity).
  split; [exact Hv|]. split; [exact Hw|].
  exact (process_domain_step Lattice.rosette Lattice.seven_ids 5 20 12 Samples.fresh
           vtx_default Samples.corner_ne Samples.walked_ne Hv Hw).
Defined.

(** On the rosette with the identities [lopsided], the closure attempt from
    candidate 8 makes one nested call, on candidate 9, whose walk throws: the
    exception leaves with candidate 8 closed and in the domain, candidate 9
    neither. *)
Lemma lopsided_chain :
  process_domain Lattice.rosette Cases.lopsided 2 20 8
                 (mkP Cases.lopsided_scan [] coord_unset) vtx_default
  = Some (Throw msg_second, Cases.halfway).
Proof. vm_compute. reflexivity. Qed.

(** C6, as the claim has it, fails: the walk comes before the marking, and
    when it throws the candidate is neither closed nor appended.  So it is
    with candidate 9 above, unclosed and no boundary vertex. *)
Lemma process_domain_throws_before_marking :
  ~ (forall depth wf dv st first v res,
        vertices st !! dv = Some v ->
        DirichVtx.closed v = false ->
        DirichVtx.onBoundary v = false ->
        process_domain Lattice.rosette Cases.lopsided depth wf dv st first = Some res ->
        (exists c', vertices (snd res) !! dv = Some c' /\ DirichVtx.closed c' = true)
        /\ (exists p rest,
               domain (snd res) = domain st ++ DirichVtx.set_pathto_next p v :: rest)).
Proof.
  intros H.
  destruct (H 1%nat 20%nat 9%nat Cases.halfway Cases.south_corner Cases.stranded
              (Throw msg_second, Cases.halfway))
    as [(c' & Hc' & Hclosed) _]; try (vm_compute; reflexivity).
  vm_compute in Hc'. injection Hc' as <-. discriminate.
Qed.

(** C7.  In any iteration of the loop of [walk_common]: when neither
    direction flanking the corner found on [hexit_first] holds a neighbour
    with the second identity of the edge, the walk throws the exception of
    line 503; when such a neighbour is found but is not the neighbour of
    [hexit] in the direction derived from the rotation, it throws the
    exception of line 544.  An iteration that goes round again hands over to
    the next one, and an exception leaves [walk_common], [walk_to_next] and
    [process_domain] as it is: the call of [process_domain] ends in that
    exception, with nothing marked and nothing appended, which is not the
    return value false. *)
Theorem walk_common_raises {G : Geometry} (hg : HexGrid.t) (f : list Flt) :
  (forall edgedoms nnc,
      (forall n st hf fd,
          HexGrid.hexen hg !! hexit_first st = Some hf ->
          first_dirn hg f edgedoms dirs hf (v_init st) (hexit st) = Ret fd ->
          no_side hg f (snd edgedoms) hf (next6 (fst fd)) ->
          no_side hg f (snd edgedoms) hf (prev6 (fst fd)) ->
          walk_loop hg f edgedoms nnc (S n) st = Throw msg_second)
      /\ (forall n st hf hx fd sd hn,
             HexGrid.hexen hg !! hexit_first st = Some hf ->
             first_dirn hg f edgedoms dirs hf (v_init st) (hexit st) = Ret fd ->
             find_second hg f edgedoms nnc hf (fst fd) (hexit_neighb st)
             = Ret (Some sd, hn) ->
             HexGrid.hexen hg !! snd fd = Some hx ->
             Hex.get_neighbour hx (snd (rotation (fst fd) sd)) <> Some hn ->
             walk_loop hg f edgedoms nnc (S n) st = Throw msg_wrong)
      /\ (forall n st st',
             walk_iter hg f edgedoms nnc st = Ret (Again st') ->
             walk_loop hg f edgedoms nnc (S n) st = walk_loop hg f edgedoms nnc n st')
      /\ (forall n v pth st m,
             walk_init hg f edgedoms v pth = Ret st ->
             walk_loop hg f edgedoms nnc n st = Throw m ->
             walk_common hg f edgedoms nnc n v pth = Throw m))
  /\ (forall depth wf dv st first v m,
         vertices st !! dv = Some v ->
         walk_common hg f (DirichVtx.f v, fst (DirichVtx.neighb v)) (p_ncoord st) wf v
                     (DirichVtx.pathto_next v) = Throw m ->
         process_domain hg f (S depth) wf dv st first = Some (Throw m, st)
         /\ Throw m <> Ret false).
Proof.
  split.
  - intros edgedoms nnc. repeat split.
    + intros n st hf fd Hhf Hfd H1 H2. cbn [walk_loop].
      now rewrite (walk_iter_no_second hg f edgedoms nnc st hf fd).
    + intros n st hf hx fd sd hn Hhf Hfd Hsec Hhx Hne. cbn [walk_loop].
      now rewrite (walk_iter_wrong_side hg f edgedoms nnc st hf hx fd sd hn).
    + intros n st st' H. cbn [walk_loop]. now rewrite H.
    + intros n v pth st m Hi Hl. unfold walk_common. now rewrite Hi.
  - intros depth wf dv st first v m Hv Hw. split; [|discriminate].
    cbn [process_domain]. rewrite Hv.
    now rewrite (walk_to_next_throw hg f wf v Flt_max (p_ncoord st) m Hw).
Qed.

(** C7 on the rosette: from the south-east corner of the south-west hex no
    second hex is found for the edge (0/7, 1/7); from its north-east corner
    the second hex of the edge (2/7, 1/7) is found on the wrong side. *)
Lemma walk_common_raises_witness :
  walk_loop Lattice.rosette Lattice.seven_ids ((0 # 7)%Q, (1 # 7)%Q) coord_unset 1
            Samples.at_se = Throw msg_second
  /\ walk_loop Lattice.rosette Lattice.seven_ids ((2 # 7)%Q, (1 # 7)%Q) coord_unset 1
               Samples.at_ne = Throw msg_wrong.
Proof.
  split.
  - apply (proj1 (proj1 (walk_common_raises Lattice.rosette Lattice.seven_ids)
                        ((0 # 7)%Q, (1 # 7)%Q) coord_unset)
                 0%nat Samples.at_se Samples.south_west (4, 1%nat)).
    + vm_compute. reflexivity.
    + vm_compute. reflexivity.
    + left. reflexivity.
    + left. reflexivity.
  - apply (proj1 (proj2 (proj1 (walk_common_raises Lattice.rosette Lattice.seven_ids)
                               ((2 # 7)%Q, (1 # 7)%Q) coord_unset))
                 0%nat Samples.at_ne Samples.south_west Samples.centre (5, 3%nat)
                 0 1%nat).
    + vm_compute. reflexivity.
    + vm_compute. reflexivity.
    + vm_compute. reflexivity.
    + vm_compute. reflexivity.
    + vm_compute. discriminate.
Defined.

(** ** The loop of dirichlet_vertices *)

Section LoopFacts.
Context {G : Geometry}.
Variable hg : HexGrid.t.
Variable f : list Flt.

Lemma closure_loop_skip (fuel wf dv dc : nat) (vs : list DirichVtx.t)
    (doms : list (list DirichVtx.t)) (c : DirichVtx.t) (h : Hex.t) :
  vs !! dv = Some c ->
  HexGrid.hexen hg !! DirichVtx.hi c = Some h ->
  Hex.boundaryHex h = true ->
  (dc < 3)%nat ->
  closure_loop hg f (S fuel) wf dv dc vs doms
  = closure_loop hg f fuel wf (S dv) (S dc) (alter (DirichVtx.set_closed true) dv vs) doms.
Proof.
  intros Hc Hh Hb Hdc. cbn [closure_loop].
  apply lookup_lt_Some in Hc as Hlt.
  apply Nat.ltb_lt in Hlt, Hdc. rewrite Hlt, Hdc. cbn [andb].
  now rewrite Hc, Hh, Hb.
Qed.

Lemma closure_loop_total (fuel wf dv dc : nat) (vs : list DirichVtx.t)
    (doms : list (list DirichVtx.t)) :
  (length vs <= dv + fuel)%nat ->
  is_Some (closure_loop hg f fuel wf dv dc vs doms).
Proof.
  revert dv dc vs doms. induction fuel as [|fuel IH]; intros dv dc vs doms Hlen;
    cbn [closure_loop].
  - destruct (dv <? length vs)%nat eqn:E; [apply Nat.ltb_lt in E; lia|]. cbn. eauto.
  - destruct (_ && _); [|eauto].
    destruct (vs !! dv) as [c|] eqn:Ec; [|eauto].
    destruct (HexGrid.hexen hg !! DirichVtx.hi c) as [h|]; [|eauto].
    destruct (Hex.boundaryHex h).
    + apply IH. rewrite length_alter. lia.
    + destruct (process_domain_enough hg f wf (length vs) dv (mkP vs [] coord_unset)
                  vtx_default) as [[r st] Hp].
      { cbn [vertices]. eapply unclosed_alter_lt; eauto. }
      rewrite Hp. apply process_domain_length in Hp. cbn [snd vertices] in Hp.
      destruct r; eauto. apply IH. lia.
Qed.

Lemma dirichlet_vertices_total (wf : nat) (vs : list DirichVtx.t) :
  is_Some (dirichlet_vertices hg f wf vs).
Proof.
  unfold dirichlet_vertices. destruct (scan_hexen hg f vs); eauto.
  apply closure_loop_total. lia.
Qed.

Lemma closure_loop_cap (fuel wf dv dc : nat) (vs vs' : list DirichVtx.t)
    (doms doms' : list (list DirichVtx.t)) :
  closure_loop hg f fuel wf dv dc vs doms = Some (Ret doms', vs') ->
  (length doms' <= length doms + (3 - dc))%nat.
Proof.
  revert dv dc vs doms. induction fuel as [|fuel IH]; intros dv dc vs doms H;
    cbn [closure_loop] in H.
  - destruct (_ && _); [discriminate|]. injection H as <- <-. lia.
  - destruct (dv <? length vs)%nat; cbn [andb] in H; [|injection H as <- <-; lia].
    destruct (dc <? 3)%nat eqn:Edc; [|injection H as <- <-; lia].
    apply Nat.ltb_lt in Edc.
    destruct (vs !! dv) as [c|]; [|discriminate].
    destruct (HexGrid.hexen hg !! DirichVtx.hi c) as [h|]; [|discriminate].
    destruct (Hex.boundaryHex h).
    + apply IH in H. lia.
    + destruct (process_domain hg f (length vs) wf dv _ vtx_default) as [[r st]|];
        [|discriminate].
      destruct r as [b| | |]; try discriminate.
      apply IH in H. destruct b; [rewrite length_app in H; cbn in H|]; lia.
Qed.

Lemma dirichlet_vertices_at_most_three (wf : nat) (vs vs' : list DirichVtx.t)
    (doms : list (list DirichVtx.t)) :
  dirichlet_vertices hg f wf vs = Some (Ret doms, vs') -> (length doms <= 3)%nat.
Proof.
  unfold dirichlet_vertices. destruct (scan_hexen hg f vs); try discriminate.
  intros H. apply closure_loop_cap in H. cbn in H. lia.
Qed.

End LoopFacts.

(** C5, as the code has it.  [vertex_test] appends to the candidate list, for
    the hex at [it], first the vertices of its boundary pass and then those of
    its triple-point pass.  The former exist for a boundary hex only, have
    [onBoundary] set and hold the sentinel in their neighbour pair; the latter
    are made for boundary and interior hexes alike and have [onBoundary]
    unset.  The loop of [dirichlet_vertices] does not hand a candidate owned by
    a boundary hex to [process_domain]: it sets its closed flag and moves on
    to the next candidate. *)
Theorem boundary_policy {G : Geometry} (hg : HexGrid.t) (f : list Flt) :
  (forall it vs vs',
      vertex_test hg f it vs = Ret vs' ->
      exists h bnd tri,
        HexGrid.hexen hg !! it = Some h
        /\ vs' = vs ++ bnd ++ tri
        /\ Forall (boundary_made it) bnd
        /\ Forall (interior_made it) tri
        /\ (Hex.boundaryHex h = false -> bnd = []))
  /\ (forall fuel wf dv dc vs doms c h,
         vs !! dv = Some c ->
         HexGrid.hexen hg !! DirichVtx.hi c = Some h ->
         Hex.boundaryHex h = true ->
         (dc < 3)%nat ->
         closure_loop hg f (S fuel) wf dv dc vs doms
         = closure_loop hg f fuel wf (S dv) (S dc)
                        (alter (DirichVtx.set_closed true) dv vs) doms).
Proof.
  split.
  - intros it vs vs'. apply vertex_test_appends.
  - intros. eapply closure_loop_skip; eauto.
Qed.

(** C5 on the rosette: the south-west hex yields two boundary vertices and two
    triple points. *)
Lemma boundary_policy_witness :
  exists vs' h bnd tri,
    vertex_test Lattice.rosette Lattice.seven_ids 0 [] = Ret vs'
    /\ HexGrid.hexen Lattice.rosette !! 0%nat = Some h
    /\ vs' = [] ++ bnd ++ tri
    /\ Forall (boundary_made 0) bnd
    /\ Forall (interior_made 0) tri
    /\ (Hex.boundaryHex h = false -> bnd = [])
    /\ length vs' = 4%nat.
Proof.
  destruct (vertex_test Lattice.rosette Lattice.seven_ids 0 []) as [vs'| | |] eqn:E;
    try (vm_compute in E; discriminate).
  destruct (proj1 (boundary_policy Lattice.rosette Lattice.seven_ids) 0%nat [] vs' E)
    as (h & bnd & tri & H1 & H2 & H3 & H4 & H5).
  exists vs', h, bnd, tri. repeat split; auto.
  vm_compute in E. now injection E as <-.
Defined.

(** C5, as the claim has it, fails: the south-west hex of the rosette is a
    boundary hex, and the third vertex that [vertex_test] appends for it, the
    triple point it shares with the centre and its eastern neighbour, has
    [onBoundary] unset. *)
Lemma vertex_test_triple_point_on_boundary_hex :
  ~ (forall it h vs vs' c,
        HexGrid.hexen Lattice.rosette !! it = Some h ->
        Hex.boundaryHex h = true ->
        vertex_test Lattice.rosette Lattice.seven_ids it vs = Ret vs' ->
        c ∈ drop (length vs) vs' ->
        DirichVtx.onBoundary c = true).
Proof.
  intros H.
  pose (h := Lattice.hex_of Lattice.rosette_cells 0 (0, -1)).
  pose (vs' := match vertex_test Lattice.rosette Lattice.seven_ids 0 [] with
               | Ret l => l
               | _ => []
               end).
  pose (c := default vtx_default (vs' !! 2%nat)).
  assert (Hc : DirichVtx.onBoundary c = false) by (vm_compute; reflexivity).
  rewrite (H 0%nat h [] vs' c) in Hc; [discriminate| | | |].
  - vm_compute. reflexivity.
  - vm_compute. reflexivity.
  - vm_compute. reflexivity.
  - apply list_elem_of_lookup_2 with (i := 2%nat). vm_compute. reflexivity.
Qed.

(** C1 on the rosette.  The candidates are listed hex by hex from the south,
    so the first three belong to the south-west hex, a boundary hex: the loop
    closes them, its counter reaches three and it stops.  No domain is
    returned, although candidate 12, a corner of the centre hex, is unclosed
    and not on the boundary, and a closure attempt from it succeeds. *)
Theorem dirichlet_vertices_stops_after_three :
  exists vs c h,
    dirichlet_vertices Lattice.rosette Lattice.seven_ids 20 [] = Some (Ret [], vs)
    /\ vs !! 12%nat = Some c
    /\ DirichVtx.closed c = false
    /\ DirichVtx.onBoundary c = false
    /\ HexGrid.hexen Lattice.rosette !! DirichVtx.hi c = Some h
    /\ Hex.boundaryHex h = false
    /\ fst <$> process_domain Lattice.rosette Lattice.seven_ids (length vs) 20 12
                              (mkP vs [] coord_unset) vtx_default
       = Some (Ret true).
Proof.
  destruct (dirichlet_vertices Lattice.rosette Lattice.seven_ids 20 [])
    as [[[doms| | |] vs]|] eqn:E; try (vm_compute in E; discriminate).
  destruct (vs !! 12%nat) as [c|] eqn:Ec;
    [|vm_compute in E; injection E as _ <-; discriminate].
  destruct (HexGrid.hexen Lattice.rosette !! DirichVtx.hi c) as [h|] eqn:Eh;
    [|vm_compute in E; injection E as _ <-; injection Ec as <-; discriminate].
  exists vs, c, h.
  vm_compute in E. injection E as <- <-. injection Ec as <-. injection Eh as <-.
  repeat split; vm_compute; reflexivity.
Qed.

(** The same grid listed from the centre outwards: the first candidates are
    those of the centre hex, the first closure attempt succeeds, and the one
    domain returned has the six corners of the centre hex. *)
Lemma centre_first_one_domain :
  exists dom vs,
    dirichlet_vertices Samples.centre_first Lattice.seven_ids 20 []
    = Some (Ret [dom], vs)
    /\ map DirichVtx.v dom
       = map (Lattice.vertex_coord (Lattice.hex_of [(0, 0)] 0 (0, 0))) dirs.
Proof.
  destruct (dirichlet_vertices Samples.centre_first Lattice.seven_ids 20 [])
    as [[[[|dom [|]]| | |] vs]|] eqn:E; try (vm_compute in E; discriminate).
  exists dom, vs. split; [reflexivity|].
  vm_compute in E. injection E as <- _. vm_compute. reflexivity.
Qed.

(** The sample vertex [corner_sw] is the first candidate found on the rosette. *)
Lemma scanned_first : Samples.scanned !! 0%nat = Some Samples.corner_sw.
Proof. vm_compute. reflexivity. Qed.

(** * Further properties of the methods *)

(** ** dirichlet_regions and get_contours *)

(** X1.  [dirichlet_regions] returns one entry for each entry of the first
    field, and every entry is a label in [0, 1): no entry can be mistaken for
    the sentinel [-1] of the vertex analysis. *)
Theorem dirichlet_regions_shape (hg : HexGrid.t) (f : list (list Flt)) :
  length (dirichlet_regions hg f) = length (default [] (f !! 0%nat))
  /\ Forall (fun v => (0 <= v)%Q /\ (v < 1)%Q) (dirichlet_regions hg f).
Proof.
  split.
  - unfold dirichlet_regions. now rewrite regions_fold_length, length_replicate.
  - apply Forall_lookup. intros k v. apply dirichlet_regions_range.
Qed.

(** X2.  An entry of the result whose index is the [vi] of no hex of the grid
    keeps the 0 the vector was created with. *)
Theorem dirichlet_regions_unowned (hg : HexGrid.t) (f : list (list Flt)) (k : nat) :
  k ∉ Hex.vi <$> HexGrid.hexen hg ->
  (k < length (default [] (f !! 0%nat)))%nat ->
  dirichlet_regions hg f !! k = Some 0%Q.
Proof.
  intros Hk Hlt. unfold dirichlet_regions.
  rewrite regions_fold_other by exact Hk.
  apply lookup_replicate. auto.
Qed.

(** X2 on the grid of one hex, with fields of two entries. *)
Lemma dirichlet_regions_unowned_witness :
  dirichlet_regions Samples.lone Cases.wide !! 1%nat = Some 0%Q.
Proof.
  apply (dirichlet_regions_unowned Samples.lone Cases.wide 1).
  - intros H. apply list_elem_of_In in H. vm_compute in H. intuition discriminate.
  - vm_compute. lia.
Defined.

(** X3.  The entry of a hex, on a grid whose hexes have different [vi]: it is
    the label [i/N] of the first field [i] that is largest at the hex when
    that largest value exceeds [-1e7], and it is 0 when no field does. *)
Theorem dirichlet_regions_value (hg : HexGrid.t) (f : list (list Flt)) (h : Hex.t) :
  NoDup (Hex.vi <$> HexGrid.hexen hg) ->
  h ∈ HexGrid.hexen hg ->
  (Hex.vi h < length (default [] (f !! 0%nat)))%nat ->
  (exists i, first_argmax f (Hex.vi h) i
             /\ (- seed_1e7 < fget f i (Hex.vi h))%Q
             /\ dirichlet_regions hg f !! Hex.vi h = Some (label f i))
  \/ ((forall j, (j < length f)%nat -> (fget f j (Hex.vi h) <= - seed_1e7)%Q)
      /\ dirichlet_regions hg f !! Hex.vi h = Some 0%Q).
Proof.
  intros Hnd Hin Hvi.
  pose proof Hin as Hsplit.
  apply list_elem_of_split in Hsplit as (l1 & l2 & Hl).
  assert (Hnot : Hex.vi h ∉ Hex.vi <$> l1).
  { rewrite Hl, fmap_app, fmap_cons in Hnd.
    apply NoDup_app in Hnd as (_ & Hd & _).
    intros Hx. apply (Hd _ Hx). now left. }
  assert (Hnot2 : Hex.vi h ∉ Hex.vi <$> l2).
  { rewrite Hl, fmap_app, fmap_cons in Hnd.
    apply NoDup_app in Hnd as (_ & _ & Hd). now apply NoDup_cons in Hd as [Hd _]. }
  set (rtn1 := foldl (region_hex f) (replicate (length (default [] (f !! 0%nat))) 0%Q) l1).
  assert (Hrun : dirichlet_regions hg f !! Hex.vi h = region_hex f rtn1 h !! Hex.vi h).
  { unfold dirichlet_regions. rewrite Hl, foldl_app. cbn [foldl].
    now rewrite regions_fold_other by exact Hnot2. }
  destruct (region_hex_cases f rtn1 h) as [[E Hall]|(i & E & Harg & Hseed)].
  - right. split; [exact Hall|]. etransitivity; [exact Hrun|]. rewrite E. unfold rtn1.
    rewrite regions_fold_other by exact Hnot. apply lookup_replicate. auto.
  - left. exists i. split; [exact Harg|]. split; [exact Hseed|].
    etransitivity; [exact Hrun|]. rewrite E. apply list_lookup_insert_eq.
    unfold rtn1. rewrite regions_fold_length, length_replicate. exact Hvi.
Qed.

(** X3 on the rosette: the second field is the largest at the centre, whose
    entry is 1/2. *)
Lemma dirichlet_regions_value_witness :
  (exists i, first_argmax Cases.ring (Hex.vi Samples.centre) i
             /\ (- seed_1e7 < fget Cases.ring i (Hex.vi Samples.centre))%Q
             /\ dirichlet_regions Lattice.rosette Cases.ring !! Hex.vi Samples.centre
                = Some (label Cases.ring i))
  \/ ((forall j, (j < length Cases.ring)%nat ->
                 (fget Cases.ring j (Hex.vi Samples.centre) <= - seed_1e7)%Q)
      /\ dirichlet_regions Lattice.rosette Cases.ring !! Hex.vi Samples.centre
         = Some 0%Q).
Proof.
  apply (dirichlet_regions_value Lattice.rosette Cases.ring Samples.centre).
  - apply (bool_decide_unpack _). vm_compute. reflexivity.
  - apply list_elem_of_lookup_2 with (i := 3%nat). vm_compute. reflexivity.
  - vm_compute. lia.
Defined.

(** X4.  [get_contours] returns one collection for each field, and each
    collection is a sub-list of the hexes of the grid, in grid order. *)
Theorem get_contours_shape (hg : HexGrid.t) (f : list (list Flt)) (threshold : Flt) :
  length (get_contours hg f threshold) = length f
  /\ Forall (fun l => sublist l (HexGrid.hexen hg)) (get_contours hg f threshold).
Proof.
  split; [apply get_contours_length|].
  apply Forall_lookup. intros i l H. apply get_contours_lookup in H as [_ ->].
  induction (HexGrid.hexen hg) as [|h t IH]; cbn [List.filter]; [constructor|].
  destruct (collate hg f threshold i h); now constructor.
Qed.



(** ** vertex_test and the scan of the grid *)

Section VertexFacts.
Context {G : Geometry}.
Variable hg : HexGrid.t.
Variable f : list Flt.

Lemma nbid_same_side (self : Flt) (h : Hex.t) (j : Z) :
  same_side hg f self h j ->
  Hex.has_neighbour h j = false
  \/ exists fb : Flt, nbid hg f h j = Ret fb /\ (fb == self)%Q.
Proof.
  intros [Hn|(nb & hb & fb & Hnb & Hhb & Hfb & He)].
  - left. unfold Hex.has_neighbour. rewrite Hn. apply bool_decide_eq_false.
    apply is_Some_None.
  - right. exists fb. split; [|exact He].
    unfold nbid, hexid, deref, idget. rewrite Hnb. cbn [must obind].
    rewrite Hhb. cbn [must obind]. unfold Flt in *. now rewrite Hfb.
Qed.

Lemma n_ids_uniform (self : Flt) (h : Hex.t) (ds : list Z) :
  Forall (same_side hg f self h) ds ->
  ofold (n_ids_step hg f h) ds [self] = Ret [self].
Proof.
  induction 1 as [|j ds Hj _ IH]; [reflexivity|].
  cbn [ofold]. unfold n_ids_step at 1.
  destruct (nbid_same_side self h j Hj) as [-> | (fb & -> & He)].
  - cbn [obind]. exact IH.
  - destruct (Hex.has_neighbour h j); cbn [obind]; [|exact IH].
    unfold n_ids_insert. cbn [existsb].
    apply Flt_eqb_eq in He. rewrite He. cbn [orb]. exact IH.
Qed.

Lemma vertex_test_same_side (it : nat) (h : Hex.t) (self : Flt) (vs : list DirichVtx.t) :
  HexGrid.hexen hg !! it = Some h ->
  f !! Hex.vi h = Some self ->
  Forall (same_side hg f self h) dirs ->
  vertex_test hg f it vs = Ret vs.
Proof.
  intros Hh Hf Hs. pose proof (n_ids_uniform self h dirs Hs) as Hn.
  unfold vertex_test, deref, idget.
  rewrite Hh. cbn [must obind]. unfold Flt in *. rewrite Hf. cbn [must obind].
  rewrite Hn. cbn [obind length].
  now destruct (Hex.boundaryHex h).
Qed.

Lemma boundary_step_meeting (it : nat) (h : Hex.t) (self : Flt)
    (vs vs' : list DirichVtx.t) (ni : Z) :
  boundary_step hg f it h self vs ni = Ret vs' ->
  exists new, vs' = vs ++ new /\ Forall meeting new.
Proof.
  unfold boundary_step. intros H.
  destruct (Hex.has_neighbour h ni); [|injection H as <-; exists []; now rewrite app_nil_r].
  apply obind_Ret in H as (fn & _ & H).
  destruct (negb (Flt_eqb fn self)) eqn:E;
    [|injection H as <-; exists []; now rewrite app_nil_r].
  apply negb_true_iff, Flt_eqb_neq in E.
  destruct (negb (Hex.has_neighbour h (next6 ni))).
  { injection H as <-. eexists; (split; [reflexivity|]).
    constructor; [|constructor]. left. cbn. auto. }
  destruct (negb (Hex.has_neighbour h (prev6 ni))).
  { injection H as <-. eexists; (split; [reflexivity|]).
    constructor; [|constructor]. right. cbn. auto. }
  injection H as <-; exists []; now rewrite app_nil_r.
Qed.

Lemma interior_step_meeting (it : nat) (h : Hex.t) (self : Flt)
    (vs vs' : list DirichVtx.t) (ni : Z) :
  interior_step hg f it h self vs ni = Ret vs' ->
  exists new, vs' = vs ++ new /\ Forall meeting new.
Proof.
  unfold interior_step. intros H.
  destruct (Hex.has_neighbour h ni); [|injection H as <-; exists []; now rewrite app_nil_r].
  apply obind_Ret in H as (f1 & _ & H).
  destruct (negb (Flt_eqb f1 self)) eqn:E1;
    [|injection H as <-; exists []; now rewrite app_nil_r].
  apply negb_true_iff, Flt_eqb_neq in E1.
  destruct (Hex.has_neighbour h (next6 ni));
    [|injection H as <-; exists []; now rewrite app_nil_r].
  apply obind_Ret in H as (f2 & _ & H).
  destruct (negb (Flt_eqb f2 self) && negb (Flt_eqb f2 f1)) eqn:E2; injection H as <-.
  - apply andb_true_iff in E2 as [E2 E3].
    apply negb_true_iff, Flt_eqb_neq in E2. apply negb_true_iff, Flt_eqb_neq in E3.
    eexists; (split; [reflexivity|]).
    constructor; [|constructor]. unfold meeting, three_identities. cbn. auto.
  - exists []; now rewrite app_nil_r.
Qed.

Lemma vertex_test_meets (it : nat) (vs vs' : list DirichVtx.t) :
  vertex_test hg f it vs = Ret vs' ->
  exists new, vs' = vs ++ new /\ Forall meeting new.
Proof.
  unfold vertex_test. intros H.
  apply obind_Ret in H as (h & _ & H).
  apply obind_Ret in H as (self & _ & H).
  apply obind_Ret in H as (n_ids & _ & H).
  destruct (_ || _).
  - apply obind_Ret in H as (vs1 & H1 & H).
    apply (ofold_appends meeting) in H as (tri & -> & Htri);
      [|intros; eapply interior_step_meeting; eauto].
    destruct (Hex.boundaryHex h).
    + apply (ofold_appends meeting) in H1 as (bnd & -> & Hbnd);
        [|intros; eapply boundary_step_meeting; eauto].
      exists (bnd ++ tri). rewrite app_assoc. split; [reflexivity|].
      now apply Forall_app.
    + injection H1 as <-. eauto.
  - injection H as <-. exists []. now rewrite app_nil_r.
Qed.

Lemma vertex_test_owned (it : nat) (vs vs' : list DirichVtx.t) :
  vertex_test hg f it vs = Ret vs' ->
  exists new, vs' = vs ++ new /\ Forall (owned hg) new.
Proof.
  intros H. apply vertex_test_appends in H as (h & bnd & tri & Hh & -> & Hb & Ht & Hnil).
  exists (bnd ++ tri). split; [reflexivity|]. apply Forall_app. split.
  - destruct (Hex.boundaryHex h) eqn:Eb; [|rewrite Hnil by reflexivity; constructor].
    eapply Forall_impl; [exact Hb|].
    intros c (_ & Hc & Hi & _). split; [exact Hc|]. exists h. rewrite Hi. auto.
  - eapply Forall_impl; [exact Ht|].
    intros c (Ho & Hc & Hi). split; [exact Hc|]. exists h. rewrite Hi.
    split; [exact Hh|]. congruence.
Qed.

Lemma scan_hexen_meets (vs vs' : list DirichVtx.t) :
  scan_hexen hg f vs = Ret vs' ->
  exists new, vs' = vs ++ new /\ Forall (fun c => meeting c /\ owned hg c) new.
Proof.
  unfold scan_hexen. apply ofold_appends.
  intros a it a' H.
  destruct (vertex_test_meets _ _ _ H) as (new & -> & Hm).
  destruct (vertex_test_owned _ _ _ H) as (new' & E & Ho).
  apply app_inv_head in E as <-.
  exists new. split; [reflexivity|]. apply Forall_and. auto.
Qed.

Lemma scan_hexen_same_side (vs : list DirichVtx.t) :
  (forall it h, HexGrid.hexen hg !! it = Some h ->
                exists self : Flt, f !! Hex.vi h = Some self
                                   /\ Forall (same_side hg f self h) dirs) ->
  scan_hexen hg f vs = Ret vs.
Proof.
  intros Hall. unfold scan_hexen.
  assert (Hseq : forall it, it ∈ seq 0 (length (HexGrid.hexen hg)) ->
                            vertex_test hg f it vs = Ret vs).
  { intros it Hit. apply elem_of_seq in Hit as [_ Hit]. cbn in Hit.
    destruct (lookup_lt_is_Some_2 _ _ Hit) as [h Hh].
    destruct (Hall it h Hh) as (self & Hf & Hs).
    eapply vertex_test_same_side; eauto. }
  induction (seq 0 (length (HexGrid.hexen hg))) as [|it l IH]; [reflexivity|].
  cbn [ofold]. rewrite Hseq by (now left). cbn [obind].
  apply IH. intros it' Hit'. apply Hseq. now right.
Qed.

End VertexFacts.

(** X6.  A hex all of whose existing neighbours carry its own identity gives
    no candidate: [vertex_test] returns the list it was given. *)
Theorem vertex_test_uniform {G : Geometry} (hg : HexGrid.t) (f : list Flt)
    (it : nat) (h : Hex.t) (self : Flt) (vs : list DirichVtx.t) :
  HexGrid.hexen hg !! it = Some h ->
  f !! Hex.vi h = Some self ->
  Forall (same_side hg f self h) dirs ->
  vertex_test hg f it vs = Ret vs.
Proof. apply vertex_test_same_side. Qed.

(** Each direction of a hex of a sample grid, by evaluation. *)
Ltac same_sides :=
  unfold dirs;
  repeat (apply List.Forall_cons;
          [first [ left; vm_compute; reflexivity
                 | right; do 3 eexists;
                   (split; [vm_compute; reflexivity|]);
                   (split; [vm_compute; reflexivity|]);
                   (split; [vm_compute; reflexivity|]);
                   vm_compute; reflexivity ]|]);
  apply List.Forall_nil.

(** X6 on the rosette with one identity everywhere, at the centre hex. *)
Lemma vertex_test_uniform_witness :
  vertex_test Lattice.rosette Cases.flat 3 [] = Ret [].
Proof.
  apply (vertex_test_uniform Lattice.rosette Cases.flat 3 Samples.centre (3 # 7)%Q []).
  - vm_compute. reflexivity.
  - vm_compute. reflexivity.
  - same_sides.
Defined.

(** X7.  Every candidate that [vertex_test] appends is a place where
    identities meet.  At a triple point the identity of the hex and the two
    of the neighbour pair are pairwise different; at a boundary vertex one
    entry of the pair is the sentinel and the other differs from the identity
    of the hex. *)
Theorem vertex_test_meeting {G : Geometry} (hg : HexGrid.t) (f : list Flt)
    (it : nat) (vs vs' : list DirichVtx.t) :
  vertex_test hg f it vs = Ret vs' ->
  exists new, vs' = vs ++ new /\ Forall meeting new.
Proof. apply vertex_test_meets. Qed.

(** X7 on the rosette with seven identities, at the south-west hex. *)
Lemma vertex_test_meeting_witness :
  exists new, firstn 4 Samples.scanned = [] ++ new /\ Forall meeting new.
Proof.
  apply (vertex_test_meeting Lattice.rosette Lattice.seven_ids 0 []).
  vm_compute. reflexivity.
Defined.

(** X8.  The scan of the grid keeps the candidates it was given and appends
    candidates that are unclosed, belong to a hex of the grid, to a boundary
    hex when they are boundary vertices, and at which different identities
    meet. *)
Theorem scan_hexen_candidates {G : Geometry} (hg : HexGrid.t) (f : list Flt)
    (vs vs' : list DirichVtx.t) :
  scan_hexen hg f vs = Ret vs' ->
  exists new, vs' = vs ++ new /\ Forall (fun c => meeting c /\ owned hg c) new.
Proof. apply scan_hexen_meets. Qed.

(** X8 on the rosette with seven identities. *)
Lemma scan_hexen_candidates_witness :
  exists new, Samples.scanned = [] ++ new
              /\ Forall (fun c => meeting c /\ owned Lattice.rosette c) new.
Proof.
  apply (scan_hexen_candidates Lattice.rosette Lattice.seven_ids []).
  vm_compute. reflexivity.
Defined.

(** ** The walks *)

Section Reports.
Context {G : Geometry}.
Variable hg : HexGrid.t.
Variable f : list Flt.
Variable edgedoms : Flt * Flt.
Variable nnc : coord.

Lemma rotate_reports (n : nat) (rot : Rotn) (l j : Z) (st : wstate) (hexit_last : nat)
    (r : walk_out) :
  rotate hg f edgedoms n rot l j st hexit_last = Ret (Finished r) ->
  reports hg f edgedoms (next_neighb_dom r) (next_neighb_coord r).
Proof.
  revert j st hexit_last. induction n as [|n IH]; intros j st hexit_last H;
    cbn [rotate] in H; (destruct (j =? l); [discriminate|]); [discriminate|].
  apply obind_Ret in H as (hx & _ & H).
  destruct (Hex.get_neighbour hx j) as [nxt|].
  - apply obind_Ret in H as (hn & Hhn & H). apply must_Ret in Hhn.
    apply obind_Ret in H as (fn & Hfn & H). apply must_Ret in Hfn.
    destruct (Flt_eqb fn (snd edgedoms)) eqn:E2; [eauto|].
    destruct (Flt_eqb fn (fst edgedoms)) eqn:E1; [discriminate|].
    apply Flt_eqb_neq in E1, E2.
    injection H as <-. right. exists nxt, hn. cbn. auto.
  - injection H as <-. left. cbn. auto.
Qed.

Lemma walk_iter_reports (st : wstate) (r : walk_out) :
  walk_iter hg f edgedoms nnc st = Ret (Finished r) ->
  reports hg f edgedoms (next_neighb_dom r) (next_neighb_coord r).
Proof.
  unfold walk_iter. intros H.
  apply obind_Ret in H as (hf & _ & H).
  apply obind_Ret in H as (fd & _ & H).
  apply obind_Ret in H as (sec & _ & H).
  destruct (fst sec); [|discriminate].
  apply obind_Ret in H as (hx & _ & H).
  destruct (decide _); [|discriminate].
  eapply rotate_reports; eauto.
Qed.

Lemma walk_loop_reports (fuel : nat) (st : wstate) (r : walk_out) :
  walk_loop hg f edgedoms nnc fuel st = Ret r ->
  reports hg f edgedoms (next_neighb_dom r) (next_neighb_coord r).
Proof.
  revert st. induction fuel as [|fuel IH]; intros st H; cbn [walk_loop] in H;
    [discriminate|].
  apply obind_Ret in H as ([r'|st'] & He & H).
  - injection H as <-. eapply walk_iter_reports; eauto.
  - eauto.
Qed.

Lemma walk_common_reports (fuel : nat) (v : DirichVtx.t) (pth : list coord) (r : walk_out) :
  walk_common hg f edgedoms nnc fuel v pth = Ret r ->
  reports hg f edgedoms (next_neighb_dom r) (next_neighb_coord r).
Proof.
  unfold walk_common. intros H. apply obind_Ret in H as (st & _ & H).
  eapply walk_loop_reports; eauto.
Qed.

(** A result obtained within a budget of iterations is the result for every
    larger budget. *)
Lemma walk_loop_more (n k : nat) (st : wstate) :
  walk_loop hg f edgedoms nnc n st <> OutOfFuel ->
  walk_loop hg f edgedoms nnc (n + k) st = walk_loop hg f edgedoms nnc n st.
Proof.
  revert st. induction n as [|n IH]; intros st H; [now contradict H|].
  cbn [walk_loop Nat.add] in *.
  destruct (walk_iter hg f edgedoms nnc st) as [[r|st']| | |]; cbn [obind] in *;
    try reflexivity.
  now apply IH.
Qed.

Lemma walk_common_more (n k : nat) (v : DirichVtx.t) (pth : list coord) :
  walk_common hg f edgedoms nnc n v pth <> OutOfFuel ->
  walk_common hg f edgedoms nnc (n + k) v pth = walk_common hg f edgedoms nnc n v pth.
Proof.
  unfold walk_common.
  destruct (walk_init hg f edgedoms v pth) as [st| | |]; cbn [obind]; try reflexivity.
  apply walk_loop_more.
Qed.

(** *** Outcomes of the parts of a walk *)

Lemma obind_plain {A B : Type} (m : outcome A) (k : A -> outcome B) :
  plain m -> (forall a, m = Ret a -> plain (k a)) -> plain (obind m k).
Proof. intros [->|[a ->]] Hk; cbn; [now left | now apply Hk]. Qed.

Lemma must_plain {A : Type} (o : option A) : plain (must o).
Proof. destruct o; [right; eauto | now left]. Qed.

Lemma Ret_plain {A : Type} (a : A) : plain (Ret a).
Proof. right; eauto. Qed.

Lemma hexid_plain (it : nat) : plain (hexid hg f it).
Proof.
  unfold hexid. apply obind_plain; [apply must_plain|]. intros. apply must_plain.
Qed.

Lemma seed_first_plain (ds : list Z) (hf : Hex.t) (vi0 : coord) :
  plain (seed_first hg f edgedoms ds hf vi0).
Proof.
  induction ds as [|i ds IH]; cbn; [apply Ret_plain|].
  destruct (Hex.get_neighbour hf i); [|exact IH].
  apply obind_plain; [apply must_plain|]. intros hb _.
  destruct (Flt_ltb _ _); [|exact IH].
  apply obind_plain; [apply must_plain|]. intros fb _.
  destruct (_ && _); [apply Ret_plain | exact IH].
Qed.

Lemma first_dirn_plain (ds : list Z) (hf : Hex.t) (vi0 : coord) (hx : nat) :
  plain (first_dirn hg f edgedoms ds hf vi0 hx).
Proof.
  revert hx. induction ds as [|i ds IH]; intros hx; cbn; [apply Ret_plain|].
  destruct (compare_vertex_coord hf i vi0); [|apply IH].
  apply obind_plain.
  - destruct (Hex.get_neighbour hf (next6 i)); [|apply Ret_plain].
    apply obind_plain; [apply hexid_plain|]. intros. apply Ret_plain.
  - intros r1 _. destruct (fst r1); [apply Ret_plain|].
    destruct (Hex.get_neighbour hf (prev6 i)); [|apply Ret_plain].
    apply obind_plain; [apply hexid_plain|].
    intros fa _. destruct (Flt_eqb fa (fst edgedoms)); [apply Ret_plain | apply IH].
Qed.

Lemma walk_init_plain (v : DirichVtx.t) (pth : list coord) :
  plain (walk_init hg f edgedoms v pth).
Proof.
  unfold walk_init. apply obind_plain; [apply must_plain|]. intros hf _.
  apply obind_plain; [apply must_plain|]. intros f0 _.
  destruct (Flt_eqb f0 (fst edgedoms)); [|apply Ret_plain].
  apply obind_plain; [apply seed_first_plain|]. intros [nb|] _; apply Ret_plain.
Qed.

(** *** An edge whose second identity is on no hex *)

Hypothesis Habsent : absent f (snd edgedoms).

Lemma second_at_absent (hf : Hex.t) (j : Z) (hn : nat) :
  second_at hg f edgedoms nnc hf j hn = Undef
  \/ exists hn', second_at hg f edgedoms nnc hf j hn = Ret (false, hn').
Proof.
  unfold second_at, deref, idget.
  destruct (Hex.get_neighbour hf j) as [nb|]; [|right; eauto].
  destruct (HexGrid.hexen hg !! nb) as [hb|]; cbn [must obind]; [|now left].
  destruct (f !! Hex.vi hb) as [fb|] eqn:Efb; cbn [must obind]; [|now left].
  apply Habsent in Efb. apply Flt_eqb_neq in Efb. rewrite Efb. right; eauto.
Qed.

Lemma find_second_absent (hf : Hex.t) (d : Z) (hn : nat) :
  find_second hg f edgedoms nnc hf d hn = Undef
  \/ exists hn', find_second hg f edgedoms nnc hf d hn = Ret (None, hn').
Proof.
  unfold find_second.
  destruct (second_at_absent hf (next6 d) hn) as [->|[n1 ->]]; cbn; [now left|].
  destruct (second_at_absent hf (prev6 d) n1) as [->|[n2 ->]]; cbn; [now left|].
  right; eauto.
Qed.

Lemma walk_iter_absent (st : wstate) :
  walk_iter hg f edgedoms nnc st = Throw msg_second
  \/ walk_iter hg f edgedoms nnc st = Undef.
Proof.
  unfold walk_iter.
  destruct (must_plain (HexGrid.hexen hg !! hexit_first st)) as [E|[hf E]];
    unfold deref; rewrite E; cbn [obind]; [now right|].
  destruct (first_dirn_plain dirs hf (v_init st) (hexit st)) as [->|[fd ->]];
    cbn [obind]; [now right|].
  destruct (find_second_absent hf (fst fd) (hexit_neighb st)) as [->|[n ->]];
    cbn; auto.
Qed.

Lemma walk_common_absent (fuel : nat) (v : DirichVtx.t) (pth : list coord) :
  walk_common hg f edgedoms nnc (S fuel) v pth = Throw msg_second
  \/ walk_common hg f edgedoms nnc (S fuel) v pth = Undef.
Proof.
  unfold walk_common.
  destruct (walk_init_plain v pth) as [->|[st ->]]; cbn [obind walk_loop]; [now right|].
  destruct (walk_iter_absent st) as [-> | ->]; cbn; auto.
Qed.

End Reports.

(** X9.  What a walk that returns reports about the far side of the vertex
    it reached: either the sentinel with an unset coordinate, or the identity
    and the centre of a hex of the grid, an identity different from both
    identities of the edge that was walked.  [walk_to_neighbour] may also
    return without walking, and then leaves both as the caller gave them. *)
Theorem walk_reports {G : Geometry} (hg : HexGrid.t) (f : list Flt)
    (fuel : nat) (v : DirichVtx.t) (nnd : Flt) (nnc : coord) :
  (forall w, walk_to_next hg f fuel v nnd nnc = Ret w ->
             reports hg f (DirichVtx.f v, fst (DirichVtx.neighb v))
                     (w_dom w) (w_ncoord w))
  /\ (forall w, walk_to_neighbour hg f fuel v nnd nnc = Ret w ->
                (w_dom w = nnd /\ w_ncoord w = nnc)
                \/ reports hg f (DirichVtx.neighb v) (w_dom w) (w_ncoord w)).
Proof.
  split.
  - unfold walk_to_next. intros w H. apply obind_Ret in H as (r & Hr & H).
    injection H as <-. apply walk_common_reports in Hr. exact Hr.
  - unfold walk_to_neighbour. intros w H.
    destruct (_ || _); [injection H as <-; now left|].
    apply obind_Ret in H as (r & Hr & H).
    injection H as <-. right. apply walk_common_reports in Hr. exact Hr.
Qed.

(** X9 on the rosette, for the walk from the north-east corner of the centre
    hex. *)
Lemma walk_reports_witness :
  reports Lattice.rosette Lattice.seven_ids
          (DirichVtx.f Samples.corner_ne, fst (DirichVtx.neighb Samples.corner_ne))
          (w_dom Samples.walked_ne) (w_ncoord Samples.walked_ne).
Proof.
  apply (proj1 (walk_reports Lattice.rosette Lattice.seven_ids 20 Samples.corner_ne
                  Flt_max coord_unset)).
  vm_compute. reflexivity.
Defined.

(** X10.  A walk along an edge whose second identity no hex carries returns
    no vertex: allowed at least one iteration, [walk_to_next] throws the
    exception about the second hex, unless an iterator it dereferences is
    invalid. *)
Theorem walk_to_next_absent {G : Geometry} (hg : HexGrid.t) (f : list Flt)
    (fuel : nat) (v : DirichVtx.t) (nnd : Flt) (nnc : coord) :
  absent f (fst (DirichVtx.neighb v)) ->
  walk_to_next hg f (S fuel) v nnd nnc = Throw msg_second
  \/ walk_to_next hg f (S fuel) v nnd nnc = Undef.
Proof.
  intros Ha. unfold walk_to_next.
  destruct (walk_common_absent hg f (DirichVtx.f v, fst (DirichVtx.neighb v)) nnc Ha
              fuel v (DirichVtx.pathto_next v)) as [-> | ->]; cbn; auto.
Qed.

(** X10 on the rosette with seven identities, none of which is the sentinel,
    for a boundary vertex whose neighbour pair starts with the sentinel. *)
Lemma walk_to_next_absent_witness :
  walk_to_next Lattice.rosette Lattice.seven_ids 1 Cases.rim_vertex Flt_max coord_unset
  = Throw msg_second
  \/ walk_to_next Lattice.rosette Lattice.seven_ids 1 Cases.rim_vertex Flt_max coord_unset
     = Undef.
Proof.
  apply (walk_to_next_absent Lattice.rosette Lattice.seven_ids 0 Cases.rim_vertex
           Flt_max coord_unset).
  intros k fb Hk.
  do 7 (destruct k as [|k]; [injection Hk as <-; vm_compute; discriminate|]).
  discriminate.
Defined.

(** X11.  On an identity field made by [dirichlet_regions], a walk to the
    next vertex from a vertex whose neighbour pair starts with the sentinel
    returns no vertex: the labels lie in [0, 1), so no hex carries the
    sentinel. *)
Theorem walk_to_next_from_sentinel {G : Geometry} (hg : HexGrid.t)
    (fields : list (list Flt)) (fuel : nat) (v : DirichVtx.t) (nnd : Flt) (nnc : coord) :
  (fst (DirichVtx.neighb v) == sentinel)%Q ->
  walk_to_next hg (dirichlet_regions hg fields) (S fuel) v nnd nnc = Throw msg_second
  \/ walk_to_next hg (dirichlet_regions hg fields) (S fuel) v nnd nnc = Undef.
Proof.
  intros Hs.
  assert (Ha : absent (dirichlet_regions hg fields) (fst (DirichVtx.neighb v))).
  { intros k fb Hk He. apply dirichlet_regions_range in Hk as [Hk _].
    rewrite He, Hs in Hk. vm_compute in Hk. now apply Hk. }
  unfold walk_to_next.
  destruct (walk_common_absent hg (dirichlet_regions hg fields)
              (DirichVtx.f v, fst (DirichVtx.neighb v)) nnc Ha
              fuel v (DirichVtx.pathto_next v)) as [-> | ->]; cbn; auto.
Qed.

(** X11 on the rosette, with the identities that [dirichlet_regions] makes of
    the fields [ring]. *)
Lemma walk_to_next_from_sentinel_witness :
  walk_to_next Lattice.rosette (dirichlet_regions Lattice.rosette Cases.ring) 1
               Cases.rim_vertex Flt_max coord_unset = Throw msg_second
  \/ walk_to_next Lattice.rosette (dirichlet_regions Lattice.rosette Cases.ring) 1
                  Cases.rim_vertex Flt_max coord_unset = Undef.
Proof.
  apply (walk_to_next_from_sentinel Lattice.rosette Cases.ring 0 Cases.rim_vertex
           Flt_max coord_unset).
  vm_compute. reflexivity.
Defined.

(** X12.  A walk that returns has written one path buffer of the vertex and
    nothing else of it: [walk_to_next] has appended coordinates to
    [pathto_next], the last of them the coordinate it returns;
    [walk_to_neighbour] has done the same to [pathto_neighbour], or has left
    the vertex as it was. *)
Theorem walk_paths {G : Geometry} (hg : HexGrid.t) (f : list Flt)
    (fuel : nat) (v : DirichVtx.t) (nnd : Flt) (nnc : coord) :
  (forall w, walk_to_next hg f fuel v nnd nnc = Ret w ->
             exists mid,
               w_vtx w = DirichVtx.set_pathto_next
                           (DirichVtx.pathto_next v ++ mid ++ [w_coord w]) v)
  /\ (forall w, walk_to_neighbour hg f fuel v nnd nnc = Ret w ->
                w_vtx w = v
                \/ exists mid,
                     w_vtx w = DirichVtx.set_pathto_neighbour
                                 (DirichVtx.pathto_neighbour v ++ mid ++ [w_coord w]) v).
Proof.
  split.
  - unfold walk_to_next. intros w H. apply obind_Ret in H as (r & Hr & H).
    injection H as <-. apply walk_common_path in Hr as (mid & Hr).
    exists mid. cbn. now rewrite Hr.
  - unfold walk_to_neighbour. intros w H.
    destruct (_ || _); [injection H as <-; now left|].
    apply obind_Ret in H as (r & Hr & H).
    injection H as <-. apply walk_common_path in Hr as (mid & Hr).
    right. exists mid. cbn. now rewrite Hr.
Qed.

(** X12 on the rosette, for the walk from the north-east corner of the centre
    hex. *)
Lemma walk_paths_witness :
  exists mid,
    w_vtx Samples.walked_ne
    = DirichVtx.set_pathto_next
        (DirichVtx.pathto_next Samples.corner_ne ++ mid ++ [w_coord Samples.walked_ne])
        Samples.corner_ne.
Proof.
  apply (proj1 (walk_paths Lattice.rosette Lattice.seven_ids 20 Samples.corner_ne
                  Flt_max coord_unset)).
  vm_compute. reflexivity.
Defined.

(** X13.  The budget of a walk counts iterations of its [while] loop only.
    The loop that rotates around a hex ends within its six passes in every
    iteration, and a result obtained within a budget is the result for every
    larger budget. *)
Theorem walk_budget {G : Geometry} (hg : HexGrid.t) (f : list Flt)
    (edgedoms : Flt * Flt) (nnc : coord) :
  (forall st, walk_iter hg f edgedoms nnc st <> OutOfFuel)
  /\ (forall n k v pth,
         walk_common hg f edgedoms nnc n v pth <> OutOfFuel ->
         walk_common hg f edgedoms nnc (n + k) v pth
         = walk_common hg f edgedoms nnc n v pth).
Proof.
  split.
  - apply walk_iter_fuel.
  - intros. now apply walk_common_more.
Qed.

(** ** process_domain and dirichlet_vertices *)

Lemma flag_only_refl (vs : list DirichVtx.t) : Forall2 flag_only vs vs.
Proof. induction vs; constructor; auto. now left. Qed.

Lemma flag_only_alter (vs0 vs : list DirichVtx.t) (dv : nat) :
  Forall2 flag_only vs0 vs ->
  Forall2 flag_only vs0 (alter (DirichVtx.set_closed true) dv vs).
Proof.
  intros H. apply Forall2_alter_r; [exact H|].
  intros x y _ _ [-> | ->]; right; reflexivity.
Qed.

Section DomainMore.
Context {G : Geometry}.
Variable hg : HexGrid.t.
Variable f : list Flt.

Ltac pd_split H :=
  cbn [process_domain] in H;
  match type of H with
  | context [vertices ?st !! ?dv] =>
      destruct (vertices st !! dv) as [v|] eqn:Ev; [|injection H as <-];
      [ destruct (walk_to_next hg f _ v Flt_max (p_ncoord st)) as [w|m| |] eqn:Ew;
        [ cbv zeta in H;
          match type of H with
          | context [vtx_compare ?a ?b] =>
              destruct (vtx_compare a b) eqn:Ecmp; [injection H as <-|]
          end;
          [ | match type of H with
              | context [search_next ?a ?b ?c ?d] =>
                  destruct (search_next a b c d) as [[dv2 c2]|] eqn:Es;
                  [ destruct (DirichVtx.onBoundary c2) eqn:Eb; [injection H as <-|]
                  | injection H as <- ]
              end ]
        | injection H as <- | injection H as <- | injection H as <- ]
      | ]
  end.

Lemma process_domain_flag_only (depth wf dv : nat) (st : pstate) (first : DirichVtx.t)
    (res : outcome bool * pstate) (vs0 : list DirichVtx.t) :
  Forall2 flag_only vs0 (vertices st) ->
  process_domain hg f depth wf dv st first = Some res ->
  Forall2 flag_only vs0 (vertices (snd res)).
Proof.
  revert dv st first. induction depth as [|depth IH]; intros dv st first H0 H;
    [discriminate|].
  pd_split H; cbn [snd vertices]; auto using flag_only_alter.
  eapply IH in H; [exact H|]. cbn [vertices]. now apply flag_only_alter.
Qed.

(** The domain grows by the vertex the call was made on, with the path of its
    walk, and then by vertices reached from it. *)
Lemma process_domain_domain (depth wf dv : nat) (st st' : pstate) (first v : DirichVtx.t)
    (b : bool) :
  vertices st !! dv = Some v ->
  process_domain hg f depth wf dv st first = Some (Ret b, st') ->
  exists p rest,
    domain st' = domain st ++ DirichVtx.set_pathto_next p v :: rest
    /\ Forall (reached (DirichVtx.f v)) rest.
Proof.
  revert dv st first v. induction depth as [|depth IH]; intros dv st first v0 Hv H;
    [discriminate|].
  cbn [process_domain] in H. rewrite Hv in H.
  destruct (walk_to_next hg f wf v0 Flt_max (p_ncoord st)) as [w|m| |] eqn:Ew;
    try discriminate.
  cbv zeta in H. rewrite (walk_to_next_vtx hg f _ _ _ _ _ Ew) in H.
  set (p := DirichVtx.pathto_next (w_vtx w)) in *.
  destruct (vtx_compare _ _).
  { injection H as <- <-. exists p, []. cbn. auto. }
  destruct (search_next _ _ _ _) as [[dv2 c2]|] eqn:Es.
  2:{ injection H as <- <-. exists p, []. cbn. auto. }
  destruct (DirichVtx.onBoundary c2) eqn:Eb.
  { injection H as <- <-. exists p, []. cbn. auto. }
  apply search_next_Some in Es as (Hj & (Hc & _ & Hf & _) & _).
  destruct (IH _ _ _ _ Hj H) as (p2 & rest & Hd & Hrest). cbn [domain] in Hd.
  exists p, (DirichVtx.set_pathto_next p2 c2 :: rest). split.
  - rewrite Hd, <- app_assoc. reflexivity.
  - constructor; [unfold reached; cbn; auto|].
    eapply Forall_impl; [exact Hrest|].
    intros c (H1 & H2 & H3). split; [|auto]. now rewrite H1.
Qed.

(** *** The loop of dirichlet_vertices *)

Lemma closure_loop_flag_only (fuel wf dv dc : nat) (vs vs0 : list DirichVtx.t)
    (doms : list (list DirichVtx.t))
    (res : outcome (list (list DirichVtx.t)) * list DirichVtx.t) :
  Forall2 flag_only vs0 vs ->
  closure_loop hg f fuel wf dv dc vs doms = Some res ->
  Forall2 flag_only vs0 (snd res).
Proof.
  revert dv dc vs doms. induction fuel as [|fuel IH]; intros dv dc vs doms H0 H;
    cbn [closure_loop] in H;
    (destruct (_ && _); [|injection H as <-; exact H0]);
    [discriminate|].
  destruct (vs !! dv) as [c|]; [|injection H as <-; exact H0].
  destruct (HexGrid.hexen hg !! DirichVtx.hi c) as [h|];
    [|injection H as <-; exact H0].
  destruct (Hex.boundaryHex h).
  - eapply IH in H; [exact H|]. now apply flag_only_alter.
  - destruct (process_domain hg f (length vs) wf dv _ vtx_default) as [[r st]|] eqn:Ep;
      [|discriminate].
    eapply process_domain_flag_only in Ep; [|exact H0]. cbn [snd vertices] in Ep.
    destruct r as [b|m| |]; try (injection H as <-; exact Ep).
    eapply IH in H; eauto.
Qed.

Lemma closure_loop_traced (fuel wf dv dc : nat) (vs vs' : list DirichVtx.t)
    (doms doms' : list (list DirichVtx.t)) :
  Forall (traced hg) doms ->
  closure_loop hg f fuel wf dv dc vs doms = Some (Ret doms', vs') ->
  Forall (traced hg) doms'.
Proof.
  revert dv dc vs doms. induction fuel as [|fuel IH]; intros dv dc vs doms H0 H;
    cbn [closure_loop] in H;
    (destruct (_ && _); [|injection H as <- <-; exact H0]);
    [discriminate|].
  destruct (vs !! dv) as [c|] eqn:Ec; [|discriminate].
  destruct (HexGrid.hexen hg !! DirichVtx.hi c) as [h|] eqn:Eh; [|discriminate].
  destruct (Hex.boundaryHex h) eqn:Eb.
  - eapply IH in H; eauto.
  - destruct (process_domain hg f (length vs) wf dv _ vtx_default) as [[r st]|] eqn:Ep;
      [|discriminate].
    destruct r as [b|m| |]; try discriminate.
    eapply IH in H; [exact H|].
    destruct b; [|exact H0].
    apply Forall_app. split; [exact H0|]. constructor; [|constructor].
    apply process_domain_domain with (v := c) in Ep as (p & rest & Hd & Hr);
      [|exact Ec].
    cbn [domain app] in Hd. exists (DirichVtx.set_pathto_next p c), rest, h.
    cbn. auto.
Qed.

(** The counter of the loop runs with the position in the list as long as
    every candidate met belongs to a boundary hex. *)
Lemma closure_loop_rim (fuel wf dv : nat) (vs : list DirichVtx.t)
    (doms : list (list DirichVtx.t)) :
  (length vs <= dv + fuel)%nat ->
  (forall i c, (dv <= i < 3)%nat -> vs !! i = Some c ->
               exists h, HexGrid.hexen hg !! DirichVtx.hi c = Some h
                         /\ Hex.boundaryHex h = true) ->
  exists vs', closure_loop hg f fuel wf dv dv vs doms = Some (Ret doms, vs').
Proof.
  revert dv vs. induction fuel as [|fuel IH]; intros dv vs Hlen Hrim;
    cbn [closure_loop].
  - destruct (dv <? length vs)%nat eqn:E; [apply Nat.ltb_lt in E; lia|]. cbn. eauto.
  - destruct (dv <? length vs)%nat eqn:E1; cbn [andb]; [|eauto].
    destruct (dv <? 3)%nat eqn:E2; [|eauto].
    apply Nat.ltb_lt in E1, E2.
    destruct (lookup_lt_is_Some_2 vs dv E1) as [c Hc]. rewrite Hc.
    destruct (Hrim dv c ltac:(lia) Hc) as (h & -> & ->).
    apply IH.
    + rewrite length_alter. lia.
    + intros i c' Hi Hc'. rewrite list_lookup_alter_ne in Hc' by lia.
      apply (Hrim i); [lia|auto].
Qed.

End DomainMore.

(** X14.  [process_domain] writes nothing but closed flags into the list of
    candidates: however the call ends, the list has the candidates it had, in
    place, each as it was or with its closed flag set.  The paths of the
    walks go to the copies in the domain. *)
Theorem process_domain_flags_only {G : Geometry} (hg : HexGrid.t) (f : list Flt)
    (depth wf dv : nat) (st : pstate) (first : DirichVtx.t)
    (res : outcome bool * pstate) :
  process_domain hg f depth wf dv st first = Some res ->
  Forall2 flag_only (vertices st) (vertices (snd res)).
Proof.
  apply process_domain_flag_only, flag_only_refl.
Qed.

(** X14 on the rosette, for the closure attempt from candidate 12. *)
Lemma process_domain_flags_only_witness :
  exists res,
    process_domain Lattice.rosette Lattice.seven_ids 6 20 12 Samples.fresh vtx_default
    = Some res
    /\ Forall2 flag_only (vertices Samples.fresh) (vertices (snd res)).
Proof.
  destruct (process_domain Lattice.rosette Lattice.seven_ids 6 20 12 Samples.fresh
              vtx_default) as [res|] eqn:E; [|vm_compute in E; discriminate].
  exists res. split; [reflexivity|].
  exact (process_domain_flags_only Lattice.rosette Lattice.seven_ids 6 20 12
           Samples.fresh vtx_default res E).
Defined.

(** X15.  A call of [process_domain] that returns keeps what the domain held
    and appends the vertex it was called on, with the path of its walk, and
    then the vertices reached from it: each carries the identity of the first
    (compared as numbers), is no boundary vertex, and was copied before its
    closed flag was set. *)
Theorem process_domain_domain_grows {G : Geometry} (hg : HexGrid.t) (f : list Flt)
    (depth wf dv : nat) (st st' : pstate) (first v : DirichVtx.t) (b : bool) :
  vertices st !! dv = Some v ->
  process_domain hg f depth wf dv st first = Some (Ret b, st') ->
  exists p rest,
    domain st' = domain st ++ DirichVtx.set_pathto_next p v :: rest
    /\ Forall (reached (DirichVtx.f v)) rest.
Proof. apply process_domain_domain. Qed.

(** X16.  A closure attempt that succeeds ends where it began: the last
    vertex of the domain has a path to the next vertex whose last coordinate
    compares equal to the start of the domain, which is the vertex of the
    first call when [first_vtx] came in unset. *)
Theorem process_domain_closes_at_start {G : Geometry} (hg : HexGrid.t) (f : list Flt)
    (depth wf dv : nat) (st st' : pstate) (first v : DirichVtx.t) :
  vertices st !! dv = Some v ->
  vtx_unset (if vtx_unset first then v else first) = false ->
  process_domain hg f depth wf dv st first = Some (Ret true, st') ->
  exists c co,
    last (domain st') = Some c
    /\ last (DirichVtx.pathto_next c) = Some co
    /\ vtx_compare (if vtx_unset first then v else first) co = true.
Proof.
  revert dv st first v. induction depth as [|depth IH]; intros dv st first v0 Hv Hu H;
    [discriminate|].
  cbn [process_domain] in H. rewrite Hv in H.
  destruct (walk_to_next hg f wf v0 Flt_max (p_ncoord st)) as [w|m| |] eqn:Ew;
    try discriminate.
  cbv zeta in H.
  destruct (vtx_compare _ _) eqn:Ecmp.
  { injection H as <-. exists (w_vtx w), (w_coord w). cbn [domain].
    apply walk_to_next_path in Ew as (mid & Ep).
    rewrite last_snoc, Ep, app_assoc, last_snoc. auto. }
  destruct (search_next _ _ _ _) as [[dv2 c2]|] eqn:Es; [|discriminate].
  destruct (DirichVtx.onBoundary c2); [discriminate|].
  apply search_next_Some in Es as (Hj & _).
  set (start := if vtx_unset first then v0 else first) in *.
  specialize (IH dv2 _ start c2 Hj). rewrite Hu in IH. apply IH; auto.
Qed.

(** The state in which the closure attempt from candidate 12 of the rosette
    ends. *)
Lemma rosette_centre_run :
  exists st',
    process_domain Lattice.rosette Lattice.seven_ids 6 20 12 Samples.fresh vtx_default
    = Some (Ret true, st').
Proof.
  destruct (process_domain Lattice.rosette Lattice.seven_ids 6 20 12 Samples.fresh
              vtx_default) as [[[[|]| | |] st']|] eqn:E;
    try (vm_compute in E; discriminate).
  exists st'. reflexivity.
Defined.

(** X15 on the rosette, for the closure attempt from candidate 12. *)
Lemma process_domain_domain_grows_witness :
  exists st' p rest,
    process_domain Lattice.rosette Lattice.seven_ids 6 20 12 Samples.fresh vtx_default
    = Some (Ret true, st')
    /\ domain st' = domain Samples.fresh ++ DirichVtx.set_pathto_next p Samples.corner_ne :: rest
    /\ Forall (reached (DirichVtx.f Samples.corner_ne)) rest.
Proof.
  destruct rosette_centre_run as [st' E].
  assert (Hv : vertices Samples.fresh !! 12%nat = Some Samples.corner_ne)
    by (vm_compute; reflexivity).
  destruct (process_domain_domain_grows Lattice.rosette Lattice.seven_ids 6 20 12
              Samples.fresh st' vtx_default Samples.corner_ne true Hv E)
    as (p & rest & Hd & Hr).
  exists st', p, rest. auto.
Defined.

(** X16 on the rosette, for the closure attempt from candidate 12. *)
Lemma process_domain_closes_at_start_witness :
  exists st' c co,
    process_domain Lattice.rosette Lattice.seven_ids 6 20 12 Samples.fresh vtx_default
    = Some (Ret true, st')
    /\ last (domain st') = Some c
    /\ last (DirichVtx.pathto_next c) = Some co
    /\ vtx_compare (if vtx_unset vtx_default then Samples.corner_ne else vtx_default) co
       = true.
Proof.
  destruct rosette_centre_run as [st' E].
  assert (Hv : vertices Samples.fresh !! 12%nat = Some Samples.corner_ne)
    by (vm_compute; reflexivity).
  assert (Hu : vtx_unset (if vtx_unset vtx_default then Samples.corner_ne else vtx_default)
               = false) by (vm_compute; reflexivity).
  destruct (process_domain_closes_at_start (G := Lattice.geometry) Lattice.rosette
              Lattice.seven_ids 6 20 12 Samples.fresh st' (vtx_default (Geometry := Lattice.geometry))
              Samples.corner_ne Hv Hu E)
    as (c & co & Hl & Hp & Hc).
  exists st', c, co. auto.
Defined.

(** X17.  [dirichlet_vertices] returns at most three domains, and each of
    them starts with a candidate of a hex that is not a boundary hex and goes
    on with vertices of the same identity that are no boundary vertices. *)
Theorem dirichlet_vertices_domains {G : Geometry} (hg : HexGrid.t) (f : list Flt)
    (wf : nat) (vs vs' : list DirichVtx.t) (doms : list (list DirichVtx.t)) :
  dirichlet_vertices hg f wf vs = Some (Ret doms, vs') ->
  (length doms <= 3)%nat /\ Forall (traced hg) doms.
Proof.
  intros H. split; [eapply dirichlet_vertices_at_most_three; eauto|].
  unfold dirichlet_vertices in H. destruct (scan_hexen hg f vs); try discriminate.
  eapply closure_loop_traced in H; [exact H|constructor].
Qed.

(** X17 on the rosette listed from the centre outwards. *)
Lemma dirichlet_vertices_domains_witness :
  (length Cases.found <= 3)%nat /\ Forall (traced Samples.centre_first) Cases.found.
Proof.
  destruct (dirichlet_vertices Samples.centre_first Lattice.seven_ids 20 [])
    as [[[doms| | |] vs']|] eqn:E; try (vm_compute in E; discriminate).
  assert (Hd : Cases.found = doms) by (unfold Cases.found; now rewrite E).
  rewrite Hd.
  exact (dirichlet_vertices_domains Samples.centre_first Lattice.seven_ids 20 [] vs' doms E).
Defined.

(** X18.  [dirichlet_vertices] leaves the caller's candidates in place and
    appends those of its scan; apart from that only closed flags change,
    however the call ends. *)
Theorem dirichlet_vertices_keeps_candidates {G : Geometry} (hg : HexGrid.t)
    (f : list Flt) (wf : nat) (vs : list DirichVtx.t)
    (res : outcome (list (list DirichVtx.t)) * list DirichVtx.t) :
  dirichlet_vertices hg f wf vs = Some res ->
  exists new,
    Forall (fun c => meeting c /\ owned hg c) new
    /\ Forall2 flag_only (vs ++ new) (snd res).
Proof.
  unfold dirichlet_vertices. intros H.
  destruct (scan_hexen hg f vs) as [vs1|m| |] eqn:Es;
    try (injection H as <-; exists []; rewrite app_nil_r;
         split; [constructor | apply flag_only_refl]).
  apply scan_hexen_meets in Es as (new & -> & Hnew).
  exists new. split; [exact Hnew|].
  eapply closure_loop_flag_only; [apply flag_only_refl | exact H].
Qed.

(** X18 on the rosette with seven identities. *)
Lemma dirichlet_vertices_keeps_candidates_witness :
  exists res new,
    dirichlet_vertices Lattice.rosette Lattice.seven_ids 20 [] = Some res
    /\ Forall (fun c => meeting c /\ owned Lattice.rosette c) new
    /\ Forall2 flag_only ([] ++ new) (snd res).
Proof.
  destruct (dirichlet_vertices Lattice.rosette Lattice.seven_ids 20 []) as [res|] eqn:E;
    [|vm_compute in E; discriminate].
  destruct (dirichlet_vertices_keeps_candidates Lattice.rosette Lattice.seven_ids 20 []
              res E) as (new & Hn & Hf).
  exists res, new. auto.
Defined.

(** X19.  When the first three candidates of the list belong to boundary
    hexes, [dirichlet_vertices] returns no domain, whatever candidates follow
    and whatever the walks would do: the loop closes the three and its
    counter stops it. *)
Theorem dirichlet_vertices_rim_first {G : Geometry} (hg : HexGrid.t) (f : list Flt)
    (wf : nat) (vs vs1 : list DirichVtx.t) :
  scan_hexen hg f vs = Ret vs1 ->
  (forall i c, (i < 3)%nat -> vs1 !! i = Some c ->
               exists h, HexGrid.hexen hg !! DirichVtx.hi c = Some h
                         /\ Hex.boundaryHex h = true) ->
  exists vs', dirichlet_vertices hg f wf vs = Some (Ret [], vs').
Proof.
  intros Hs Hrim. unfold dirichlet_vertices. rewrite Hs.
  apply closure_loop_rim; [lia|].
  intros i c Hi. apply Hrim. lia.
Qed.

(** X19 on the rosette listed row by row from the south. *)
Lemma dirichlet_vertices_rim_first_witness :
  exists vs', dirichlet_vertices Lattice.rosette Lattice.seven_ids 20 [] = Some (Ret [], vs').
Proof.
  apply (dirichlet_vertices_rim_first Lattice.rosette Lattice.seven_ids 20 []
           Samples.scanned).
  - vm_compute. reflexivity.
  - intros i c Hi Hc.
    do 3 (destruct i as [|i];
          [injection Hc as <-; eexists; split; vm_compute; reflexivity|]).
    lia.
Defined.

(** X20.  On a grid where every hex has an identity and every neighbour that
    exists carries the same one, the scan finds no candidate, and
    [dirichlet_vertices] called with an empty list returns no domain and
    leaves the list empty. *)
Theorem dirichlet_vertices_uniform {G : Geometry} (hg : HexGrid.t) (f : list Flt)
    (wf : nat) :
  (forall it h, HexGrid.hexen hg !! it = Some h ->
                exists self : Flt, f !! Hex.vi h = Some self
                                   /\ Forall (same_side hg f self h) dirs) ->
  (forall vs, scan_hexen hg f vs = Ret vs)
  /\ dirichlet_vertices hg f wf [] = Some (Ret [], []).
Proof.
  intros Hall. split.
  - intros vs. now apply scan_hexen_same_side.
  - unfold dirichlet_vertices. now rewrite (scan_hexen_same_side hg f [] Hall).
Qed.

(** X20 on the rosette with one identity everywhere. *)
Lemma dirichlet_vertices_uniform_witness :
  (forall vs, scan_hexen Lattice.rosette Cases.flat vs = Ret vs)
  /\ dirichlet_vertices Lattice.rosette Cases.flat 20 [] = Some (Ret [], []).
Proof.
  apply (dirichlet_vertices_uniform Lattice.rosette Cases.flat 20).
  intros it h H. exists (3 # 7)%Q.
  do 7 (destruct it as [|it];
        [injection H as <-; split; [vm_compute; reflexivity | same_sides]|]).
  discriminate.
Defined.
